(** * matlabdomain.documenters: the MATLAB class-header parser

    A shallow embedding of [sphinxcontrib/documenters.py] (the MATLAB domain
    of sphinx-contrib): the token cursor of [MatMixin], the constructors of
    [MatFunction] and [MatClass], and the dispatch of
    [MatObject.parse_mfile]. *)

From Stdlib Require Import Ascii.
From stdpp Require Import gmap strings list.

(** ** Strings the source writes with escapes *)

(** ['\n'], ['\t'] and the double quote of the error messages. *)
Definition NL : string := String "010"%char EmptyString.
Definition TAB : string := String "009"%char EmptyString.
Definition DQ : string := String "034"%char EmptyString.

(** ** Pygments tokens *)

(** A Pygments token type is a path below the root [Token]
    ([Token.Name.Function] is [("Name", "Function")]); each path is one
    interned object, so the source's [is] is equality of paths. *)
Definition TokenType : Type := list string.

Module Token.
Definition Text : TokenType := ["Text"].
Definition Keyword : TokenType := ["Keyword"].
Definition Name : TokenType := ["Name"].
Definition Punctuation : TokenType := ["Punctuation"].
Definition Operator : TokenType := ["Operator"].
Definition Comment : TokenType := ["Comment"].
End Token.

(** A token is the pair (type, text) that the lexer yields. *)
Definition token : Type := TokenType * string.

(** ** Exceptions and outcomes *)

Inductive PyExc : Type :=
| TypeError (msg : string)
| IndexError
| KeyError (key : string)
| AttributeError (msg : string)
| Exception (msg : string).

(** The outcome of running a piece of the program: a value, a raised
    exception, or (for the model only) a loop that used up its fuel. *)
Inductive outcome (A : Type) : Type :=
| OK (a : A)
| Raise (e : PyExc)
| OutOfFuel.
Arguments OK {A} a.
Arguments Raise {A} e.
Arguments OutOfFuel {A}.

(** ** The class hierarchy, as far as [super] needs it *)

Inductive PyClass : Type :=
| cls_object | cls_MatObject | cls_MatModule | cls_MatMixin
| cls_MatFunction | cls_MatClass
| cls_MatProperty | cls_MatMethod | cls_MatStaticMethod.

#[global] Instance PyClass_eq_dec : EqDecision PyClass.
Proof. solve_decision. Defined.

(** Method resolution order of each class statement of the module. *)
Definition mro (c : PyClass) : list PyClass :=
  match c with
  | cls_object => [cls_object]
  | cls_MatObject => [cls_MatObject; cls_object]
  | cls_MatModule => [cls_MatModule; cls_MatObject; cls_object]
  | cls_MatMixin => [cls_MatMixin; cls_object]
  | cls_MatFunction => [cls_MatFunction; cls_MatObject; cls_object]
  | cls_MatClass => [cls_MatClass; cls_MatMixin; cls_MatObject; cls_object]
  | cls_MatProperty => [cls_MatProperty; cls_MatObject; cls_object]
  | cls_MatMethod => [cls_MatMethod; cls_MatObject; cls_object]
  | cls_MatStaticMethod => [cls_MatStaticMethod; cls_MatObject; cls_object]
  end.

Definition issubclass (c d : PyClass) : bool := bool_decide (d ∈ mro c).

(** [super(cls, self)] for an object [self] of class [self_cls]: Python
    raises [TypeError] unless [self] is an instance of [cls]. *)
Definition super_ (cls self_cls : PyClass) : outcome unit :=
  if issubclass self_cls cls then OK tt
  else Raise (TypeError "super(type, obj): obj must be an instance or subtype of type").

(** ** The object model *)

(** The value of a class attribute: the list of a cell array (and the
    default [[]]), or the text ['true'] / ['false'] of a logical value. *)
Inductive AttrVal : Type :=
| AttrList (l : list string)
| AttrStr (s : string).

#[global] Instance AttrVal_eq_dec : EqDecision AttrVal.
Proof. solve_decision. Defined.

(** [MatProperty], [MatMethod]: a [MatObject] with nothing added. *)
Record MatMember : Type := mkMatMember { member_name : string }.

(** A [MatClass] instance: the fields [__init__] assigns. *)
Record MatClass : Type := mkMatClass {
  name : string;
  path : string;
  tokens : list token;
  attrs : gmap string AttrVal;
  bases : list string;
  docstring : string;
  properties : gmap string MatMember;
  methods : gmap string MatMember
}.

(** A [MatFunction] instance. *)
Record MatFunction : Type := mkMatFunction {
  fn_name : string;
  fn_path : string;
  fn_tokens : list token
}.

(** The types a class attribute may take, [bool] or [list]. *)
Inductive AttrType : Type := ty_bool | ty_list.

Definition cls_attr_types : gmap string AttrType :=
  list_to_map
    [("Abstract", ty_bool); ("AllowedSubclasses", ty_list);
     ("ConstructOnLoad", ty_bool); ("HandleCompatible", ty_bool);
     ("Hidden", ty_bool); ("InferiorClasses", ty_list); ("Sealed", ty_bool)].

(** [key in d] for a dictionary [d]. *)
Definition dict_in {V : Type} (key : string) (d : gmap string V) : bool :=
  match d !! key with Some _ => true | None => false end.

(** ** A state and exception monad over the object under construction *)

Definition M (St A : Type) : Type := St -> St * outcome A.

Definition ret {St A} (a : A) : M St A := fun self => (self, OK a).

Definition bind {St A B} (m : M St A) (k : A -> M St B) : M St B :=
  fun self =>
    match m self with
    | (self', OK a) => k a self'
    | (self', Raise e) => (self', Raise e)
    | (self', OutOfFuel) => (self', OutOfFuel)
    end.

Definition raise {St A} (e : PyExc) : M St A := fun self => (self, Raise e).

(** A computation that only reads the object. *)
Definition reads {St A} (f : St -> outcome A) : M St A :=
  fun self => (self, f self).

(** An assignment to a field of the object. *)
Definition assign {St} (f : St -> St) : M St unit :=
  fun self => (f self, OK tt).

#[global] Instance M_ret {St} : MRet (M St) := @ret St.
#[global] Instance M_bind {St} : MBind (M St) := fun A B k m => bind m k.

(** [while cond: body] over the local variables [l] that the loop
    changes; every iteration uses one unit of fuel. *)
Fixpoint while_ {St L} (fuel : nat) (cond : L -> M St bool)
    (body : L -> M St L) (l : L) : M St L :=
  match fuel with
  | 0 => fun self => (self, OutOfFuel)
  | S fuel' =>
      b ← cond l;
      if b : bool then l' ← body l; while_ fuel' cond body l' else ret l
  end.

(** Every iteration of every loop of [__init__] moves the index forward by
    at least one token and reads the token at the index first, so a loop
    runs at most as many times as there are tokens. *)
Definition loop_fuel (self : MatClass) : nat := S (length (tokens self)).

(** ** MatMixin: the token cursor *)

(** [self.tokens[idx]], with the [IndexError] of an index out of range
    (the index is never negative). *)
Definition tokens_at (self : MatClass) (idx : nat) : outcome token :=
  match tokens self !! idx with
  | Some t => OK t
  | None => Raise IndexError
  end.

(** [self.tokens[idx][0] is token[0] and self.tokens[idx][1] == token[1]] *)
Definition _tk_eq (self : MatClass) (idx : nat) (tk : token) : outcome bool :=
  match tokens_at self idx with
  | OK t => OK (bool_decide (t.1 = tk.1) && bool_decide (t.2 = tk.2))
  | Raise e => Raise e
  | OutOfFuel => OutOfFuel
  end.

(** [self.tokens[idx][0] is not token[0] or
    self.tokens[idx][1] != token[1]] *)
Definition _tk_ne (self : MatClass) (idx : nat) (tk : token) : outcome bool :=
  match tokens_at self idx with
  | OK t => OK (negb (bool_decide (t.1 = tk.1)) || negb (bool_decide (t.2 = tk.2)))
  | Raise e => Raise e
  | OutOfFuel => OutOfFuel
  end.

(** [idx >= len(self.tokens)]; no method calls it. *)
Definition _eotk (self : MatClass) (idx : nat) : bool :=
  bool_decide (length (tokens self) ≤ idx).

(** The three scanners are one loop, [while p(tokens[idx]): idx += 1],
    that returns the number of steps: it walks the tokens from [idx] on,
    and raises [IndexError] when they all satisfy [p]. *)
Fixpoint scan (p : token -> bool) (l : list token) : outcome nat :=
  match l with
  | [] => Raise IndexError
  | t :: l' =>
      if p t then
        match scan p l' with
        | OK n => OK (S n)
        | r => r
        end
      else OK 0
  end.

(** The conditions of the three loops, on the token at the index. *)
Definition is_blank (t : token) : bool :=
  bool_decide (t.1 = Token.Text) && bool_decide (t.2 = " ").

Definition is_whitespace (t : token) : bool :=
  bool_decide (t.1 = Token.Text) && bool_decide (t.2 ∈ [" "; NL; TAB]).

Definition is_indent (t : token) : bool :=
  bool_decide (t.1 = Token.Text) && bool_decide (t.2 ∈ [" "; TAB]).

Definition _blanks (self : MatClass) (idx : nat) : outcome nat :=
  scan is_blank (drop idx (tokens self)).

Definition _whitespace (self : MatClass) (idx : nat) : outcome nat :=
  scan is_whitespace (drop idx (tokens self)).

Definition _indent (self : MatClass) (idx : nat) : outcome nat :=
  scan is_indent (drop idx (tokens self)).

(** ** Assignments to the fields of a [MatClass] *)

(** An instance before [__init__] has run: no field is assigned yet, and
    [__init__] assigns every field before it reads one, so what stands
    here is never read. *)
Definition new_instance : MatClass :=
  mkMatClass EmptyString EmptyString [] ∅ [] EmptyString ∅ ∅.

Definition set_name (v : string) (self : MatClass) : MatClass :=
  mkMatClass v (path self) (tokens self) (attrs self) (bases self)
    (docstring self) (properties self) (methods self).

Definition set_path (v : string) (self : MatClass) : MatClass :=
  mkMatClass (name self) v (tokens self) (attrs self) (bases self)
    (docstring self) (properties self) (methods self).

Definition set_tokens (v : list token) (self : MatClass) : MatClass :=
  mkMatClass (name self) (path self) v (attrs self) (bases self)
    (docstring self) (properties self) (methods self).

Definition set_attrs (v : gmap string AttrVal) (self : MatClass) : MatClass :=
  mkMatClass (name self) (path self) (tokens self) v (bases self)
    (docstring self) (properties self) (methods self).

Definition set_bases (v : list string) (self : MatClass) : MatClass :=
  mkMatClass (name self) (path self) (tokens self) (attrs self) v
    (docstring self) (properties self) (methods self).

Definition set_docstring (v : string) (self : MatClass) : MatClass :=
  mkMatClass (name self) (path self) (tokens self) (attrs self) (bases self)
    v (properties self) (methods self).

Definition set_properties (v : gmap string MatMember) (self : MatClass) : MatClass :=
  mkMatClass (name self) (path self) (tokens self) (attrs self) (bases self)
    (docstring self) v (methods self).

Definition set_methods (v : gmap string MatMember) (self : MatClass) : MatClass :=
  mkMatClass (name self) (path self) (tokens self) (attrs self) (bases self)
    (docstring self) (properties self) v.

(** [self.attrs[key] = v] *)
Definition attrs_setitem (key : string) (v : AttrVal) : M MatClass unit :=
  assign (fun self => set_attrs (<[key := v]> (attrs self)) self).

(** [self.attrs[key].append(val)]: the entry must exist and be a list. *)
Definition attrs_append (key val : string) : M MatClass unit :=
  fun self =>
    match attrs self !! key with
    | None => (self, Raise (KeyError key))
    | Some (AttrList l) =>
        (set_attrs (<[key := AttrList (l ++ [val])]> (attrs self)) self, OK tt)
    | Some (AttrStr _) =>
        (self, Raise (AttributeError "'str' object has no attribute 'append'"))
    end.

(** [self.bases.append(val)] *)
Definition bases_append (val : string) : M MatClass unit :=
  assign (fun self => set_bases (bases self ++ [val]) self).

(** [self.docstring += val] *)
Definition docstring_iadd (val : string) : M MatClass unit :=
  assign (fun self => set_docstring (docstring self +:+ val) self).

(** Truth of a string and of an integer in a condition. *)
Definition str_truth (s : string) : bool :=
  match s with EmptyString => false | String _ _ => true end.

Definition int_truth (n : nat) : bool :=
  match n with 0 => false | S _ => true end.

(** A [while] loop of [__init__], with the fuel that the token list
    of the object allows. *)
Definition while {L} (cond : L -> M MatClass bool) (body : L -> M MatClass L)
    (l : L) : M MatClass L :=
  fun self => while_ (loop_fuel self) cond body l self.

(** ** MatClass.__init__, phase by phase *)

Definition unexpected_class_attribute (cls_attr : string) : PyExc :=
  Exception ("Unexpected class attribute: " +:+ DQ +:+ cls_attr +:+ DQ +:+ ".").

Definition unexpected_class_name (text : string) : PyExc :=
  Exception ("Unexpected class name: " +:+ DQ +:+ text +:+ DQ +:+ ".").

Definition not_a_class : PyExc :=
  TypeError "Object is not a class. Expected a class.".

(** The innermost loop of a cell array: concatenate token texts up to a
    blank or a comma. The locals are [(idx, attr_val)]. *)
Definition cell_elem_cond (l : nat * string) : M MatClass bool :=
  c ← reads (fun self => _tk_ne self l.1 (Token.Text, " "));
  if c : bool then reads (fun self => _tk_ne self l.1 (Token.Punctuation, ","))
  else mret false.

Definition cell_elem_body (l : nat * string) : M MatClass (nat * string) :=
  t ← reads (fun self => tokens_at self l.1);
  mret (l.1 + 1, l.2 +:+ t.2).

(** One round of [while self._tk_ne(idx, (Token.Punctuation, '}'))]. *)
Definition cell_body (cls_attr : string) (idx : nat) : M MatClass nat :=
  n ← reads (fun self => _blanks self idx);
  let idx := idx + n in
  l ← while cell_elem_cond cell_elem_body (idx, EmptyString);
  let idx := l.1 + 1 in
  let attr_val := l.2 in
  (if str_truth attr_val then attrs_append cls_attr attr_val else mret tt);;
  mret idx.

Definition cell_cond (idx : nat) : M MatClass bool :=
  reads (fun self => _tk_ne self idx (Token.Punctuation, "}")).

(** The value after [=]: a logical value, a cell array, or neither. *)
Definition attr_value (cls_attr : string) (idx : nat) : M MatClass nat :=
  t ← reads (fun self => tokens_at self idx);
  let k := t.1 in
  let attr_val := t.2 in
  if bool_decide (k = Token.Name) && bool_decide (attr_val ∈ ["true"; "false"])
  then
    attrs_setitem cls_attr (AttrStr attr_val);;
    mret (idx + 1)
  else
    lb ← reads (fun self => _tk_eq self idx (Token.Punctuation, "{"));
    if lb : bool then
      idx ← while cell_cond (cell_body cls_attr) (idx + 1);
      mret (idx + 1)
    else mret idx.

(** One round of [while self._tk_ne(idx, (Token.Punctuation, ')'))]. *)
Definition attr_body (idx : nat) : M MatClass nat :=
  n ← reads (fun self => _blanks self idx);
  let idx := idx + n in
  t ← reads (fun self => tokens_at self idx);
  let k := t.1 in
  let cls_attr := t.2 in
  if bool_decide (k = Token.Name) && dict_in cls_attr cls_attr_types then
    attrs_setitem cls_attr (AttrList []);;
    let idx := idx + 1 in
    n ← reads (fun self => _blanks self idx);
    let idx := idx + n in
    c ← reads (fun self => _tk_eq self idx (Token.Punctuation, ","));
    if c : bool then mret (idx + 1)
    else
      e ← reads (fun self => _tk_eq self idx (Token.Punctuation, "="));
      if e : bool then
        let idx := idx + 1 in
        n ← reads (fun self => _blanks self idx);
        let idx := idx + n in
        idx ← attr_value cls_attr idx;
        n ← reads (fun self => _blanks self idx);
        let idx := idx + n in
        c ← reads (fun self => _tk_eq self idx (Token.Punctuation, ","));
        if c : bool then mret (idx + 1) else mret idx
      else mret idx
  else raise (unexpected_class_attribute cls_attr).

Definition attr_cond (idx : nat) : M MatClass bool :=
  reads (fun self => _tk_ne self idx (Token.Punctuation, ")")).

(** The optional parenthesised list of class attributes. *)
Definition parse_attrs (idx : nat) : M MatClass nat :=
  p ← reads (fun self => _tk_eq self idx (Token.Punctuation, "("));
  if p : bool then
    idx ← while attr_cond attr_body (idx + 1);
    mret (idx + 1)
  else mret idx.

(** The class name, which must be [self.name]. *)
Definition parse_classname (idx : nat) : M MatClass nat :=
  n ← reads (fun self => _blanks self idx);
  let idx := idx + n in
  ne ← reads (fun self => _tk_ne self idx (Token.Name, name self));
  if ne : bool then
    t ← reads (fun self => tokens_at self idx);
    raise (unexpected_class_name t.2)
  else
    let idx := idx + 1 in
    n ← reads (fun self => _blanks self idx);
    mret (idx + n).

(** The loop that concatenates a base name: [while not
    self._whitespace(idx)]. The locals are [(idx, base_name)]. *)
Definition base_name_cond (l : nat * string) : M MatClass bool :=
  w ← reads (fun self => _whitespace self l.1);
  mret (negb (int_truth w)).

Definition base_name_body (l : nat * string) : M MatClass (nat * string) :=
  t ← reads (fun self => tokens_at self l.1);
  mret (l.1 + 1, l.2 +:+ t.2).

(** One round of [while self._tk_ne(idx, (Token.Text, '\n'))]. *)
Definition bases_body (idx : nat) : M MatClass nat :=
  n ← reads (fun self => _blanks self idx);
  let idx := idx + n in
  l ← while base_name_cond base_name_body (idx, EmptyString);
  let idx := l.1 in
  let base_name := l.2 in
  ne ← reads (fun self => _tk_ne self idx (Token.Text, NL));
  let idx := if ne : bool then idx + 1 else idx in
  (if str_truth base_name then bases_append base_name else mret tt);;
  n ← reads (fun self => _blanks self idx);
  let idx := idx + n in
  a ← reads (fun self => _tk_eq self idx (Token.Operator, "&"));
  mret (if a : bool then idx + 1 else idx).

Definition bases_cond (idx : nat) : M MatClass bool :=
  reads (fun self => _tk_ne self idx (Token.Text, NL)).

(** The optional list of superclasses, or the newline that ends the
    signature. *)
Definition parse_bases (idx : nat) : M MatClass nat :=
  lt ← reads (fun self => _tk_eq self idx (Token.Operator, "<"));
  if lt : bool then
    idx ← while bases_cond bases_body (idx + 1);
    mret (idx + 1)
  else
    nl ← reads (fun self => _tk_eq self idx (Token.Text, NL));
    mret (if nl : bool then idx + 1 else idx).

(** One round of [while self.tokens[idx][0] is Token.Comment]. *)
Definition docstring_cond (idx : nat) : M MatClass bool :=
  t ← reads (fun self => tokens_at self idx);
  mret (bool_decide (t.1 = Token.Comment)).

Definition docstring_body (idx : nat) : M MatClass nat :=
  t ← reads (fun self => tokens_at self idx);
  docstring_iadd t.2;;
  let idx := idx + 1 in
  nl ← reads (fun self => _tk_eq self idx (Token.Text, NL));
  idx ← (if nl : bool then
           t ← reads (fun self => tokens_at self idx);
           docstring_iadd t.2;;
           mret (idx + 1)
         else mret idx);
  indent ← reads (fun self => _indent self idx);
  mret (if int_truth indent then idx + indent else idx).

(** The docstring: comment lines right after the signature, indented. *)
Definition parse_docstring (idx : nat) : M MatClass nat :=
  indent ← reads (fun self => _indent self idx);
  if int_truth indent then
    let idx := idx + indent in
    while docstring_cond docstring_body idx
  else mret idx.

(** [MatObject.__init__(self, name)] *)
Definition MatObject__init__ (nm : string) : M MatClass unit :=
  assign (set_name nm).

(** The part of [__init__] under the comment [# parse tokens]; the value
    is the index at which the constructor stops reading. *)
Definition parse_tokens : M MatClass nat :=
  let idx := 0 in
  ne ← reads (fun self => _tk_ne self idx (Token.Keyword, "classdef"));
  if ne : bool then raise not_a_class
  else
    let idx := idx + 1 in
    n ← reads (fun self => _blanks self idx);
    let idx := idx + n in
    idx ← parse_attrs idx;
    idx ← parse_classname idx;
    idx ← parse_bases idx;
    parse_docstring idx.

(** [MatClass.__init__(self, name, path, tokens)] *)
Definition MatClass__init__ (nm pth : string) (tks : list token) : M MatClass nat :=
  reads (fun _ => super_ cls_MatClass cls_MatClass);;
  MatObject__init__ nm;;
  assign (set_path pth);;
  assign (set_tokens tks);;
  assign (set_attrs ∅);;
  assign (set_bases []);;
  assign (set_docstring EmptyString);;
  assign (set_properties ∅);;
  assign (set_methods ∅);;
  parse_tokens.

(** The expression [MatClass(name, path, tokens)]: a new instance, run
    through [__init__]; an exception leaves the caller without an
    object. *)
Definition new_MatClass (nm pth : string) (tks : list token) : outcome MatClass :=
  match MatClass__init__ nm pth tks new_instance with
  | (self, OK _) => OK self
  | (_, Raise e) => Raise e
  | (_, OutOfFuel) => OutOfFuel
  end.

(** The token list after the call. [self.tokens = tokens] makes the field
    and the caller's variable two names of one list object, so what the
    caller sees afterwards is what the field holds when [__init__] stops,
    by returning or by raising. *)
Definition tokens_after (nm pth : string) (tks : list token) : list token :=
  tokens (MatClass__init__ nm pth tks new_instance).1.

(** ** MatFunction and the dispatch of parse_mfile *)

(** [MatFunction.__init__(self, name, path, tokens)]: its first statement
    is [super(MatClass, self).__init__(name)], with [self] an instance of
    [MatFunction]. *)
Definition MatFunction__init__ (nm pth : string) (tks : list token) : M MatFunction unit :=
  reads (fun _ => super_ cls_MatClass cls_MatFunction);;
  assign (fun self => mkMatFunction nm (fn_path self) (fn_tokens self));;
  assign (fun self => mkMatFunction (fn_name self) pth (fn_tokens self));;
  assign (fun self => mkMatFunction (fn_name self) (fn_path self) tks).

Definition new_MatFunction (nm pth : string) (tks : list token) : outcome MatFunction :=
  match MatFunction__init__ nm pth tks (mkMatFunction EmptyString EmptyString []) with
  | (self, OK _) => OK self
  | (_, Raise e) => Raise e
  | (_, OutOfFuel) => OutOfFuel
  end.

(** What [parse_mfile] returns: a function, a class, or [None]. *)
Inductive MatObject : Type :=
| AFunction (f : MatFunction)
| AClass (c : MatClass).

(** [MatObject.parse_mfile(mfile, name, path)], from the point where the
    lexer has produced the token list [tks] of the file. *)
Definition parse_mfile (tks : list token) (nm pth : string) : outcome (option MatObject) :=
  match tks !! 0 with
  | None => Raise IndexError
  | Some t0 =>
      if bool_decide (t0 = (Token.Keyword, "function")) then
        match new_MatFunction nm pth tks with
        | OK f => OK (Some (AFunction f))
        | Raise e => Raise e
        | OutOfFuel => OutOfFuel
        end
      else if bool_decide (t0 = (Token.Keyword, "classdef")) then
        match new_MatClass nm pth tks with
        | OK c => OK (Some (AClass c))
        | Raise e => Raise e
        | OutOfFuel => OutOfFuel
        end
      else OK None
  end.

(** ** The getters *)

(** [MatClass.getter(self, name, *defargs)]: the property of that name, or
    the tuple of the default arguments; [V] is the type of their values. *)
Definition MatClass_getter {V : Type} (self : MatClass) (name : string)
    (defargs : list V) : outcome (MatMember + list V) :=
  if dict_in name (properties self) then
    match properties self !! name with
    | Some m => OK (inl m)
    | None => Raise (KeyError name)
    end
  else OK (inr defargs).

(** * The vocabulary of the statements *)

(** ** Tokens of a class header *)

(** The tokens that the constructor compares with. *)
Definition blank : token := (Token.Text, " ").
Definition newline : token := (Token.Text, NL).

Definition classdef : token := (Token.Keyword, "classdef").
Definition lparen : token := (Token.Punctuation, "(").
Definition rparen : token := (Token.Punctuation, ")").
Definition comma : token := (Token.Punctuation, ",").
Definition equals : token := (Token.Punctuation, "=").
Definition less_than : token := (Token.Operator, "<").
Definition ampersand : token := (Token.Operator, "&").

(** A run of [w] blank tokens. *)
Definition blanks (w : nat) : list token := replicate w blank.

(** ** Attribute lists *)

(** An entry of an attribute list: a bare attribute name, or a name with a
    logical value; the numbers are the widths of the runs of blanks before
    each token of the entry and after its last one. *)
Inductive attr_item : Type :=
| Flag (key : string) (w_key w_end : nat)
| Logical (key val : string) (w_key w_eq w_val w_end : nat).

(** The attribute that an entry names. *)
Definition item_key (a : attr_item) : string :=
  match a with Flag k _ _ => k | Logical k _ _ _ _ _ => k end.

(** The value that the constructor stores for an entry: the empty list
    for a bare name, the text of the value for a logical one. *)
Definition item_value (a : attr_item) : AttrVal :=
  match a with
  | Flag _ _ _ => AttrList []
  | Logical _ v _ _ _ _ => AttrStr v
  end.

(** The tokens of an entry. *)
Definition item_tokens (a : attr_item) : list token :=
  match a with
  | Flag k w0 w1 => blanks w0 ++ (Token.Name, k) :: blanks w1
  | Logical k v w0 w1 w2 w3 =>
      blanks w0 ++ (Token.Name, k) :: blanks w1 ++ equals ::
      blanks w2 ++ (Token.Name, v) :: blanks w3
  end.

(** The name is a class attribute, the value [true] or [false]. *)
Definition item_ok (a : attr_item) : Prop :=
  dict_in (item_key a) cls_attr_types = true /\
  match a with
  | Flag _ _ _ => True
  | Logical _ v _ _ _ _ => v = "true" \/ v = "false"
  end.

(** The entry gives its attribute a logical value. *)
Definition is_logical (a : attr_item) : Prop :=
  match a with Flag _ _ _ => False | Logical _ _ _ _ _ _ => True end.

(** The entries of a list, with a comma between two of them. *)
Fixpoint items_tokens (l : list attr_item) : list token :=
  match l with
  | [] => []
  | a :: l' =>
      item_tokens a ++
      match l' with [] => [] | _ :: _ => comma :: items_tokens l' end
  end.

(** The dictionary after the entries, in their order. *)
Definition items_attrs (l : list attr_item) (m : gmap string AttrVal) : gmap string AttrVal :=
  foldl (fun m a => <[item_key a := item_value a]> m) m l.

(** The name and the value of an entry, without the widths. *)
Definition item_entry (a : attr_item) : string * AttrVal :=
  (item_key a, item_value a).


(** ** Headers *)

(** The optional attribute list of a header. *)
Definition attr_list_tokens (al : option (list attr_item)) : list token :=
  match al with
  | None => []
  | Some l => lparen :: items_tokens l ++ [rparen]
  end.

(** The dictionary [m] after the attribute list, if there is one. *)
Definition attr_list_attrs (al : option (list attr_item))
    (m : gmap string AttrVal) : gmap string AttrVal :=
  match al with
  | None => m
  | Some l => items_attrs l m
  end.

(** Every entry of the attribute list is well formed. *)
Definition attr_list_ok (al : option (list attr_item)) : Prop :=
  match al with
  | None => True
  | Some l => Forall item_ok l
  end.

(** A header up to the class name: [classdef], the attribute list if there
    is one, the name, with runs of blanks between them and after the
    name. *)
Definition header_tokens (nm : string) (w0 : nat)
    (al : option (list attr_item)) (w1 w2 : nat) : list token :=
  classdef :: blanks w0 ++ attr_list_tokens al ++
  blanks w1 ++ (Token.Name, nm) :: blanks w2.

(** What follows the signature holds no docstring: indentation, if any,
    and then a token that is not a comment. *)
Definition quiet_tail (ind : list token) (t : token) : Prop :=
  Forall (fun x => is_indent x = true) ind /\ is_indent t = false /\
  (ind <> [] -> t.1 <> Token.Comment).

(** ** Superclass lists *)




(** ** Docstrings *)

(** A comment line of a docstring: its indentation and the text of its
    comment token; a newline token ends it. *)
Record doc_line : Type := mkDocLine {
  line_indent : list token;
  line_text : string
}.

(** The indentation of a line is made of blanks and tabs; it may be
    empty. *)
Definition doc_line_ok (d : doc_line) : Prop :=
  Forall (fun x => is_indent x = true) (line_indent d).

(** The tokens of a line, and of the lines of a docstring. *)
Definition doc_line_tokens (d : doc_line) : list token :=
  line_indent d ++ [(Token.Comment, line_text d); newline].

Definition doc_tokens (l : list doc_line) : list token :=
  flat_map doc_line_tokens l.

(** The text of each line with the text of its newline, one after the
    other. *)
Fixpoint doc_text (l : list doc_line) : string :=
  match l with
  | [] => EmptyString
  | d :: l' => line_text d +:+ NL +:+ doc_text l'
  end.

(** ** A sample token list *)

(** Tokens of
    [classdef (Sealed = true) Foo < A & B], a docstring of two lines and
    [end]. *)
Definition sample_tokens : list token :=
  [classdef; blank; lparen; (Token.Name, "Sealed"); blank; equals; blank;
   (Token.Name, "true"); rparen; blank; (Token.Name, "Foo"); blank;
   less_than; blank; (Token.Name, "A"); blank; ampersand; blank;
   (Token.Name, "B"); newline;
   blank; blank; (Token.Comment, "% FOO A class."); newline;
   blank; blank; (Token.Comment, "% It does a thing."); newline;
   (Token.Keyword, "end"); newline].

(** ** Whole headers *)

(** The texts of tokens, one after the other. *)
Definition texts (toks : list token) : string :=
  foldr (fun t s => t.2 +:+ s) EmptyString toks.







(** An element of a cell array as the constructor reads it: blanks, the
    tokens of the element, and the blank or the comma that ends it. *)
Definition lbrace : token := (Token.Punctuation, "{").
Definition rbrace : token := (Token.Punctuation, "}").

Record cell_elem : Type := mkElem {
  elem_before : nat;
  elem_toks : list token;
  elem_end : token
}.

Definition elem_tokens (e : cell_elem) : list token :=
  blanks (elem_before e) ++ elem_toks e ++ [elem_end e].

(** No token of the element is a blank or a comma; an element of no
    tokens ends with a comma; and the first token is not the closing
    brace. *)
Definition elem_ok (e : cell_elem) : Prop :=
  Forall (fun x => x <> blank /\ x <> comma) (elem_toks e) /\
  (elem_end e = blank \/ elem_end e = comma) /\
  (elem_toks e = [] -> elem_end e = comma) /\
  (elem_before e = 0 -> head (elem_toks e) <> Some rbrace).

(** What an element adds to the list of its attribute: the texts of its
    tokens, unless they are empty. *)
Definition elem_values (e : cell_elem) : list string :=
  if str_truth (texts (elem_toks e)) then [texts (elem_toks e)] else [].

Definition cell_tokens (l : list cell_elem) : list token :=
  flat_map elem_tokens l.

Definition cell_values (l : list cell_elem) : list string :=
  flat_map elem_values l.

(** An entry of an attribute list: one of the entries above, or a name
    with a cell array. *)
Inductive attr_entry : Type :=
| Plain (a : attr_item)
| Cell (key : string) (w_key w_eq w_brace : nat) (elems : list cell_elem)
    (w_end : nat).

Definition entry_key (a : attr_entry) : string :=
  match a with Plain a => item_key a | Cell k _ _ _ _ _ => k end.

Definition entry_value (a : attr_entry) : AttrVal :=
  match a with
  | Plain a => item_value a
  | Cell _ _ _ _ elems _ => AttrList (cell_values elems)
  end.

Definition entry_tokens (a : attr_entry) : list token :=
  match a with
  | Plain a => item_tokens a
  | Cell k w0 w1 w2 elems w3 =>
      blanks w0 ++ (Token.Name, k) :: blanks w1 ++ equals ::
      blanks w2 ++ lbrace :: cell_tokens elems ++ rbrace :: blanks w3
  end.

Definition entry_ok (a : attr_entry) : Prop :=
  match a with
  | Plain a => item_ok a
  | Cell k _ _ _ elems _ =>
      dict_in k cls_attr_types = true /\ Forall elem_ok elems
  end.

(** The entries of a list, with a comma between two of them. *)
Fixpoint entries_tokens (l : list attr_entry) : list token :=
  match l with
  | [] => []
  | a :: l' =>
      entry_tokens a ++
      match l' with [] => [] | _ :: _ => comma :: entries_tokens l' end
  end.

Definition entries_attrs (l : list attr_entry) (m : gmap string AttrVal) :
    gmap string AttrVal :=
  foldl (fun m a => <[entry_key a := entry_value a]> m) m l.

(** The entries of a list, each with a comma after it. *)
Definition entries_commas (l : list attr_entry) : list token :=
  flat_map (fun a => entry_tokens a ++ [comma]) l.

(** The optional attribute list of a header, with cell arrays. *)
Definition entry_list_tokens (al : option (list attr_entry)) : list token :=
  match al with
  | None => []
  | Some l => lparen :: entries_tokens l ++ [rparen]
  end.

Definition entry_list_attrs (al : option (list attr_entry))
    (m : gmap string AttrVal) : gmap string AttrVal :=
  match al with
  | None => m
  | Some l => entries_attrs l m
  end.

Definition entry_list_ok (al : option (list attr_entry)) : Prop :=
  match al with
  | None => True
  | Some l => Forall entry_ok l
  end.

(** A header up to the class name, with such an attribute list. *)
Definition whole_header_tokens (nm : string) (w0 : nat)
    (al : option (list attr_entry)) (w1 w2 : nat) : list token :=
  classdef :: blanks w0 ++ entry_list_tokens al ++
  blanks w1 ++ (Token.Name, nm) :: blanks w2.



(** ** What a computation leaves as it was, and what it ensures *)

(** The instance once the assignments at the head of [__init__] are done. *)
Definition start (nm pth : string) (tks : list token) : MatClass :=
  mkMatClass nm pth tks ∅ [] EmptyString ∅ ∅.

(** [respects R m]: whatever [m] does and however it ends, the object it
    leaves is related by [R] to the object it found. *)
Definition respects {A} (R : relation MatClass) (m : M MatClass A) : Prop :=
  forall self, R self (m self).1.

(** The relations between the object found and the object left that the
    proofs use: a field is unchanged, or the bases still hold no empty
    string. *)
Definition same_tokens : relation MatClass :=
  fun self self' => tokens self' = tokens self.

Definition same_name : relation MatClass :=
  fun self self' => name self' = name self.

Definition same_attrs : relation MatClass :=
  fun self self' => attrs self' = attrs self.

Definition same_bases : relation MatClass :=
  fun self self' => bases self' = bases self.

Definition bases_stay_nonempty : relation MatClass :=
  fun self self' => EmptyString ∉ bases self -> EmptyString ∉ bases self'.

(** [total tks m Q]: on an object whose tokens are [tks], [m] leaves the
    tokens as they are and does not run out of fuel; a value it returns
    satisfies [Q]. *)
Definition total {A} (tks : list token) (m : M MatClass A)
    (Q : A -> Prop) : Prop :=
  forall self, tokens self = tks ->
    tokens (m self).1 = tks /\
    match (m self).2 with
    | OK a => Q a
    | Raise _ => True
    | OutOfFuel => False
    end.

(** ** Runs of tokens *)

(** From [idx] on, exactly [n] tokens satisfy [p], and a token that does
    not satisfy it follows them. *)
Definition run_of (p : token -> bool) (tks : list token) (idx n : nat) : Prop :=
  (forall i, i < n -> exists t, tks !! (idx + i) = Some t /\ p t = true) /\
  (exists t, tks !! (idx + n) = Some t /\ p t = false).

(** Every token from [idx] on satisfies [p]; so it is when [idx] is past
    the last token. *)
Definition all_from (p : token -> bool) (tks : list token) (idx : nat) : Prop :=
  forall i t, idx <= i -> tks !! i = Some t -> p t = true.

(** ** Triples *)

(** [hoare P m Q E]: from an object that satisfies [P], a value that [m]
    returns and the object it leaves satisfy [Q], and an exception that it
    raises satisfies [E]. *)
Definition hoare {A} (P : MatClass -> Prop) (m : M MatClass A)
    (Q : A -> MatClass -> Prop) (E : PyExc -> Prop) : Prop :=
  forall self, P self ->
    match m self with
    | (self', OK a) => Q a self'
    | (_, Raise e) => E e
    | (_, OutOfFuel) => True
    end.

(** [parsing tks nm J]: the object under construction has the tokens
    [tks] and the name [nm], and satisfies [J]. *)
Definition parsing (tks : list token) (nm : string) (J : MatClass -> Prop) :
    MatClass -> Prop :=
  fun self => tokens self = tks /\ name self = nm /\ J self.

(** ** What the attributes and the exceptions can be *)

(** A value of the dictionary of attributes: the text of a logical value,
    or a list of texts none of which is empty. *)
Definition attr_val_ok (v : AttrVal) : Prop :=
  match v with
  | AttrStr s => s = "true" \/ s = "false"
  | AttrList l => Forall (fun x => x <> EmptyString) l
  end.

(** Every key is a class attribute and every value is well formed. *)
Definition attrs_ok (m : gmap string AttrVal) : Prop :=
  forall k v, m !! k = Some v ->
    dict_in k cls_attr_types = true /\ attr_val_ok v.

Definition has_attrs_ok (self : MatClass) : Prop := attrs_ok (attrs self).

(** Inside a cell array: the attribute [k] holds a list. *)
Definition in_cell (k : string) (self : MatClass) : Prop :=
  attrs_ok (attrs self) /\ exists l, attrs self !! k = Some (AttrList l).

(** The exceptions of the constructor on the tokens [tks] and the name
    [nm], each with the token that causes it. *)
Inductive init_error (nm : string) (tks : list token) : PyExc -> Prop :=
| err_not_a_class t :
    tks !! 0 = Some t -> t <> classdef -> init_error nm tks not_a_class
| err_index : init_error nm tks IndexError
| err_attribute i t :
    tks !! i = Some t ->
    (t.1 = Token.Name -> dict_in t.2 cls_attr_types = false) ->
    init_error nm tks (unexpected_class_attribute t.2)
| err_name i t :
    tks !! i = Some t -> t <> (Token.Name, nm) -> t <> blank ->
    init_error nm tks (unexpected_class_name t.2).

(** The fields that the parse never assigns. *)
Definition same_rest : relation MatClass :=
  fun self self' =>
    path self' = path self /\ properties self' = properties self /\
    methods self' = methods self.

(** * Properties *)

(** ** Running the monad *)

Lemma run_bind {St A B} (m : M St A) (k : A -> M St B) (self : St) :
  (m ≫= k) self =
  match m self with
  | (self', OK a) => k a self'
  | (self', Raise e) => (self', Raise e)
  | (self', OutOfFuel) => (self', OutOfFuel)
  end.
Proof. reflexivity. Qed.

Lemma run_bind_OK {St A B} (m : M St A) (k : A -> M St B) self self' a :
  m self = (self', OK a) -> (m ≫= k) self = k a self'.
Proof. intros H. rewrite run_bind, H. reflexivity. Qed.

Lemma run_bind_Raise {St A B} (m : M St A) (k : A -> M St B) self self' e :
  m self = (self', Raise e) -> (m ≫= k) self = (self', Raise e).
Proof. intros H. rewrite run_bind, H. reflexivity. Qed.

Lemma run_reads_OK {St A B} (f : St -> outcome A) (k : A -> M St B) self a :
  f self = OK a -> (reads f ≫= k) self = k a self.
Proof. intros H. rewrite run_bind. unfold reads. rewrite H. reflexivity. Qed.

Lemma run_reads_Raise {St A B} (f : St -> outcome A) (k : A -> M St B) self e :
  f self = Raise e -> (reads f ≫= k) self = (self, Raise e).
Proof. intros H. rewrite run_bind. unfold reads. rewrite H. reflexivity. Qed.

Lemma run_assign {St B} (f : St -> St) (k : unit -> M St B) self :
  (assign f ≫= k) self = k tt (f self).
Proof. reflexivity. Qed.

Lemma run_ret {St A B} (a : A) (k : A -> M St B) self :
  (mret a ≫= k) self = k a self.
Proof. reflexivity. Qed.

Lemma while_S {St L} fuel (cond : L -> M St bool) (body : L -> M St L) l :
  while_ (S fuel) cond body l =
  (b ← cond l; if b : bool then l' ← body l; while_ fuel cond body l' else mret l).
Proof. reflexivity. Qed.

(** ** The cursor on a known suffix of the tokens *)

Lemma drop_lookup (tks : list token) idx t rest :
  drop idx tks = t :: rest -> tks !! idx = Some t.
Proof.
  intros H. rewrite <- (Nat.add_0_r idx), <- lookup_drop, H. reflexivity.
Qed.

Lemma drop_next (tks : list token) idx t rest :
  drop idx tks = t :: rest -> drop (idx + 1) tks = rest.
Proof.
  intros H. rewrite <- drop_drop, H. reflexivity.
Qed.

Lemma drop_skip (tks : list token) idx l rest :
  drop idx tks = l ++ rest -> drop (idx + length l) tks = rest.
Proof.
  intros H. rewrite <- drop_drop, H. apply drop_app_length.
Qed.

Lemma drop_length_le (tks : list token) idx l :
  drop idx tks = l -> idx + length l <= length tks \/ l = [].
Proof.
  intros H. destruct (decide (idx <= length tks)) as [Hle|Hgt].
  - left. rewrite <- H, length_drop. lia.
  - right. rewrite <- H. apply drop_ge. lia.
Qed.

Lemma tokens_at_drop self idx t rest :
  drop idx (tokens self) = t :: rest -> tokens_at self idx = OK t.
Proof. intros H. unfold tokens_at. rewrite (drop_lookup _ _ _ _ H). reflexivity. Qed.

Lemma tokens_at_end self idx :
  drop idx (tokens self) = [] -> tokens_at self idx = Raise IndexError.
Proof.
  intros H. unfold tokens_at.
  destruct (tokens self !! idx) as [t|] eqn:E; [|reflexivity].
  apply lookup_lt_Some in E. apply (f_equal length) in H.
  rewrite length_drop in H. simpl in H. lia.
Qed.

Lemma tk_eq_drop self idx t rest tk :
  drop idx (tokens self) = t :: rest ->
  _tk_eq self idx tk = OK (bool_decide (t = tk)).
Proof.
  intros H. unfold _tk_eq. rewrite (tokens_at_drop _ _ _ _ H). f_equal.
  destruct t as [k v], tk as [k' v']; simpl.
  repeat case_bool_decide; simpl; congruence.
Qed.

Lemma tk_ne_drop self idx t rest tk :
  drop idx (tokens self) = t :: rest ->
  _tk_ne self idx tk = OK (negb (bool_decide (t = tk))).
Proof.
  intros H. unfold _tk_ne. rewrite (tokens_at_drop _ _ _ _ H). f_equal.
  destruct t as [k v], tk as [k' v']; simpl.
  repeat case_bool_decide; simpl; congruence.
Qed.

Lemma scan_run p (l : list token) t rest :
  Forall (fun x => p x = true) l -> p t = false ->
  scan p (l ++ t :: rest) = OK (length l).
Proof.
  intros Hl Ht. induction Hl as [|x l Hx Hl IH]; simpl.
  - rewrite Ht. reflexivity.
  - rewrite Hx, IH. reflexivity.
Qed.

Lemma scan_end p (l : list token) :
  Forall (fun x => p x = true) l -> scan p l = Raise IndexError.
Proof.
  intros Hl. induction Hl as [|x l Hx Hl IH]; simpl; [reflexivity|].
  rewrite Hx, IH. reflexivity.
Qed.

Lemma Forall_blanks w : Forall (fun x => is_blank x = true) (replicate w blank).
Proof. apply Forall_replicate. reflexivity. Qed.

Lemma blanks_drop self idx w t rest :
  drop idx (tokens self) = replicate w blank ++ t :: rest ->
  is_blank t = false ->
  _blanks self idx = OK w.
Proof.
  intros H Ht. unfold _blanks. rewrite H.
  rewrite (scan_run _ _ _ _ (Forall_blanks w) Ht), length_replicate.
  reflexivity.
Qed.

Lemma drop_blanks (tks : list token) idx w rest :
  drop idx tks = replicate w blank ++ rest -> drop (idx + w) tks = rest.
Proof.
  intros H. apply drop_skip in H. rewrite length_replicate in H. exact H.
Qed.

(** ** What a computation leaves as it was *)

Section Respects.
Context (R : relation MatClass) `{!PreOrder R}.

Lemma respects_ret {A} (a : A) : respects R (mret a).
Proof. intros self. reflexivity. Qed.

Lemma respects_raise {A} e : respects R (@raise MatClass A e).
Proof. intros self. reflexivity. Qed.

Lemma respects_reads {A} (f : MatClass -> outcome A) : respects R (reads f).
Proof. intros self. reflexivity. Qed.

Lemma respects_bind {A B} (m : M MatClass A) (k : A -> M MatClass B) :
  respects R m -> (forall a, respects R (k a)) -> respects R (m ≫= k).
Proof.
  intros Hm Hk self. rewrite run_bind. specialize (Hm self).
  destruct (m self) as [self' [a| |]]; simpl in *; [|assumption..].
  etransitivity; [exact Hm | apply Hk].
Qed.

Lemma respects_while_ {L} fuel (cond : L -> M MatClass bool)
    (body : L -> M MatClass L) :
  (forall l, respects R (cond l)) -> (forall l, respects R (body l)) ->
  forall l, respects R (while_ fuel cond body l).
Proof.
  intros Hc Hb. induction fuel as [|fuel IH]; intros l.
  - intros self. reflexivity.
  - rewrite while_S. apply respects_bind; [apply Hc|].
    intros [|]; [|apply respects_ret].
    apply respects_bind; [apply Hb | apply IH].
Qed.

Lemma respects_while {L} (cond : L -> M MatClass bool)
    (body : L -> M MatClass L) :
  (forall l, respects R (cond l)) -> (forall l, respects R (body l)) ->
  forall l, respects R (while cond body l).
Proof.
  intros Hc Hb l self. unfold while.
  apply (respects_while_ (loop_fuel self) cond body Hc Hb l self).
Qed.

Lemma respects_assign (f : MatClass -> MatClass) :
  (forall self, R self (f self)) -> respects R (assign f).
Proof. intros Hf self. apply Hf. Qed.
End Respects.

(** Goals [respects R m], by the structure of [m]; what is left are the
    assignments, for the relation at hand. *)
Ltac respects_step :=
  lazymatch goal with
  | |- respects _ (mbind _ _) => apply respects_bind; [try exact _| |intros ?]
  | |- respects _ (mret _) => apply respects_ret; exact _
  | |- respects _ (raise _) => apply respects_raise; exact _
  | |- respects _ (reads _) => apply respects_reads; exact _
  | |- respects _ (while _ _ _) =>
      apply respects_while; [try exact _|intros ?|intros ?]
  | |- respects _ (if ?b then _ else _) => destruct b eqn:?
  | |- respects _ (match ?x with _ => _ end) => destruct x eqn:?
  end.

Section Phases.
Context (R : relation MatClass) `{!PreOrder R}.
Hypothesis R_attrs_setitem : forall k v, respects R (attrs_setitem k v).
Hypothesis R_attrs_append : forall k v, respects R (attrs_append k v).
Hypothesis R_bases_append :
  forall v, str_truth v = true -> respects R (bases_append v).
Hypothesis R_docstring_iadd : forall v, respects R (docstring_iadd v).

Ltac phase := repeat respects_step; auto.

Lemma respects_cell_body cls_attr idx : respects R (cell_body cls_attr idx).
Proof. unfold cell_body, cell_elem_cond, cell_elem_body. phase. Qed.

Lemma respects_attr_value cls_attr idx : respects R (attr_value cls_attr idx).
Proof.
  unfold attr_value, cell_cond. repeat respects_step; auto using respects_cell_body.
Qed.

Lemma respects_attr_body idx : respects R (attr_body idx).
Proof.
  unfold attr_body. repeat respects_step; auto using respects_attr_value.
Qed.

Lemma respects_parse_attrs idx : respects R (parse_attrs idx).
Proof.
  unfold parse_attrs, attr_cond. repeat respects_step; auto using respects_attr_body.
Qed.

Lemma respects_parse_classname idx : respects R (parse_classname idx).
Proof. unfold parse_classname. phase. Qed.

Lemma respects_bases_body idx : respects R (bases_body idx).
Proof. unfold bases_body, base_name_cond, base_name_body. phase. Qed.

Lemma respects_parse_bases idx : respects R (parse_bases idx).
Proof.
  unfold parse_bases, bases_cond. repeat respects_step; auto using respects_bases_body.
Qed.

Lemma respects_docstring_body idx : respects R (docstring_body idx).
Proof. unfold docstring_body. phase. Qed.

Lemma respects_parse_docstring idx : respects R (parse_docstring idx).
Proof.
  unfold parse_docstring, docstring_cond.
  repeat respects_step; auto using respects_docstring_body.
Qed.

Lemma respects_parse_tokens : respects R parse_tokens.
Proof.
  unfold parse_tokens.
  repeat respects_step;
    auto using respects_parse_attrs, respects_parse_classname,
      respects_parse_bases, respects_parse_docstring.
Qed.
End Phases.

(** ** The object at the start of the parse *)

Lemma init_start nm pth tks :
  MatClass__init__ nm pth tks new_instance = parse_tokens (start nm pth tks).
Proof. reflexivity. Qed.

Lemma new_MatClass_OK nm pth tks c :
  new_MatClass nm pth tks = OK c ->
  c = (parse_tokens (start nm pth tks)).1.
Proof.
  unfold new_MatClass. rewrite init_start.
  destruct (parse_tokens (start nm pth tks)) as [self [idx| |]];
    simpl; congruence.
Qed.

(** ** The relations the parse respects *)

#[local] Instance same_tokens_preorder : PreOrder same_tokens.
Proof. split; unfold same_tokens; [intros ?|intros ? ? ?]; congruence. Qed.

#[local] Instance same_name_preorder : PreOrder same_name.
Proof. split; unfold same_name; [intros ?|intros ? ? ?]; congruence. Qed.

#[local] Instance same_attrs_preorder : PreOrder same_attrs.
Proof. split; unfold same_attrs; [intros ?|intros ? ? ?]; congruence. Qed.

#[local] Instance same_bases_preorder : PreOrder same_bases.
Proof. split; unfold same_bases; [intros ?|intros ? ? ?]; congruence. Qed.

#[local] Instance bases_stay_nonempty_preorder : PreOrder bases_stay_nonempty.
Proof. split; unfold bases_stay_nonempty; [intros ?|intros ? ? ?]; auto. Qed.

Lemma attrs_append_fields k v self :
  let self' := (attrs_append k v self).1 in
  name self' = name self /\ tokens self' = tokens self /\
  bases self' = bases self /\ docstring self' = docstring self.
Proof.
  unfold attrs_append. destruct (attrs self !! k) as [[l|s]|]; simpl; auto.
Qed.

Lemma parse_tokens_same_tokens : respects same_tokens parse_tokens.
Proof.
  apply respects_parse_tokens; try exact _; intros; intros self;
    try reflexivity.
  apply (attrs_append_fields k v self).
Qed.

Lemma parse_tokens_same_name : respects same_name parse_tokens.
Proof.
  apply respects_parse_tokens; try exact _; intros; intros self;
    try reflexivity.
  apply (attrs_append_fields k v self).
Qed.

Lemma parse_tokens_bases_nonempty : respects bases_stay_nonempty parse_tokens.
Proof.
  apply respects_parse_tokens; try exact _; intros; intros self;
    unfold bases_stay_nonempty; simpl; auto.
  - destruct (attrs_append_fields k v self) as (_ & _ & -> & _). auto.
  - intros Hb [Hin|Hin]%elem_of_app; [auto|].
    apply list_elem_of_singleton in Hin. subst v. discriminate.
Qed.

(** ** Running the phases on tokens of a known shape *)

Lemma is_blank_false (t : token) :
  t.1 <> Token.Text \/ t.2 <> " " -> is_blank t = false.
Proof.
  intros H. unfold is_blank. repeat case_bool_decide; simpl; tauto.
Qed.

(** Facts about the cursor, from a hypothesis on [drop idx (tokens self)]. *)
Ltac cursor :=
  simpl tokens;
  first
    [ eapply blanks_drop; [eassumption | first [assumption | reflexivity]]
    | eapply tk_eq_drop; eassumption
    | eapply tk_ne_drop; eassumption
    | eapply tokens_at_drop; eassumption ].

Ltac run_read := erewrite run_reads_OK by cursor.

Lemma parse_classname_run self idx w1 w2 t rest :
  drop idx (tokens self) =
    replicate w1 blank ++ (Token.Name, name self) :: replicate w2 blank ++ t :: rest ->
  is_blank t = false ->
  parse_classname idx self = (self, OK (idx + w1 + 1 + w2)).
Proof.
  intros Hd Ht. unfold parse_classname.
  pose proof (drop_blanks _ _ _ _ Hd) as Hd1.
  pose proof (drop_next _ _ _ _ Hd1) as Hd2.
  run_read. run_read.
  rewrite bool_decide_eq_true_2 by reflexivity. simpl.
  run_read. reflexivity.
Qed.

Lemma while_unfold {L} (cond : L -> M MatClass bool) (body : L -> M MatClass L) l self :
  while cond body l self =
  (b ← cond l;
   if b : bool then l' ← body l; while_ (length (tokens self)) cond body l'
   else mret l) self.
Proof. reflexivity. Qed.

Lemma indent_drop self idx ind t rest :
  drop idx (tokens self) = ind ++ t :: rest ->
  Forall (fun x => is_indent x = true) ind -> is_indent t = false ->
  _indent self idx = OK (length ind).
Proof. intros H Hind Ht. unfold _indent. rewrite H. apply scan_run; assumption. Qed.

Lemma parse_attrs_none self idx t rest :
  drop idx (tokens self) = t :: rest -> t <> (Token.Punctuation, "(") ->
  parse_attrs idx self = (self, OK idx).
Proof.
  intros Hd Ht. unfold parse_attrs. run_read.
  rewrite bool_decide_eq_false_2 by assumption. reflexivity.
Qed.

Lemma parse_bases_newline self idx rest :
  drop idx (tokens self) = newline :: rest ->
  parse_bases idx self = (self, OK (idx + 1)).
Proof.
  intros Hd. unfold parse_bases. run_read.
  rewrite bool_decide_eq_false_2 by discriminate. run_read.
  rewrite bool_decide_eq_true_2 by reflexivity. reflexivity.
Qed.

Lemma docstring_cond_run self idx t rest :
  drop idx (tokens self) = t :: rest ->
  docstring_cond idx self = (self, OK (bool_decide (t.1 = Token.Comment))).
Proof. intros Hd. unfold docstring_cond. run_read. reflexivity. Qed.

(** No docstring: after the indentation, if any, comes something other
    than a comment. *)
Lemma parse_docstring_none self idx ind t rest :
  drop idx (tokens self) = ind ++ t :: rest ->
  Forall (fun x => is_indent x = true) ind -> is_indent t = false ->
  (ind <> [] -> t.1 <> Token.Comment) ->
  parse_docstring idx self = (self, OK (idx + length ind)).
Proof.
  intros Hd Hind Ht Hc. unfold parse_docstring.
  erewrite run_reads_OK by (eapply indent_drop; eassumption).
  destruct ind as [|i ind]; simpl.
  - rewrite Nat.add_0_r. reflexivity.
  - pose proof (drop_skip _ _ _ _ Hd) as Hd1. simpl in Hd1.
    rewrite while_unfold.
    erewrite run_bind_OK by (eapply docstring_cond_run; eassumption).
    rewrite bool_decide_eq_false_2 by (apply Hc; discriminate).
    reflexivity.
Qed.

(** ** The attribute loop on entries of a known shape *)

Lemma item_tokens_head a r :
  exists t r', item_tokens a ++ r = t :: r' /\ t <> rparen.
Proof.
  destruct a as [k [|w0] w1|k v [|w0] w1 w2 w3]; simpl; eexists _, _;
    (split; [reflexivity|discriminate]).
Qed.

Lemma length_item_tokens a : 1 <= length (item_tokens a).
Proof.
  destruct a; simpl; rewrite ?length_app; simpl; lia.
Qed.

Lemma length_items_tokens l : length l <= length (items_tokens l).
Proof.
  induction l as [|a l IH]; simpl; [lia|].
  rewrite length_app. pose proof (length_item_tokens a).
  destruct l; simpl in *; lia.
Qed.

Ltac flatten_app H :=
  repeat (rewrite <- app_assoc in H || rewrite <- app_comm_cons in H);
  cbn [app] in H.

Lemma attr_value_logical self cls_attr idx v rest :
  v = "true" \/ v = "false" ->
  drop idx (tokens self) = (Token.Name, v) :: rest ->
  attr_value cls_attr idx self =
    (set_attrs (<[cls_attr := AttrStr v]> (attrs self)) self, OK (idx + 1)).
Proof.
  intros Hval Hd. unfold attr_value. run_read. cbn [fst snd].
  assert (Hv : bool_decide (v ∈ ["true"; "false"]) = true).
  { apply bool_decide_eq_true_2. rewrite !elem_of_cons. tauto. }
  rewrite Hv, bool_decide_eq_true_2 by reflexivity. reflexivity.
Qed.

(** One round of the attribute loop on an entry that a comma or the
    closing parenthesis follows. *)
Lemma attr_body_item self idx a t rest :
  item_ok a -> t = comma \/ t = rparen ->
  drop idx (tokens self) = item_tokens a ++ t :: rest ->
  exists idx',
    attr_body idx self =
      (set_attrs (<[item_key a := item_value a]> (attrs self)) self, OK idx') /\
    drop idx' (tokens self) = if bool_decide (t = comma) then rest else t :: rest.
Proof.
  intros [Hkey Hval] Ht Hd.
  assert (Hb : is_blank t = false) by (destruct Ht; subst t; reflexivity).
  unfold attr_body.
  destruct a as [k w0 w1|k v w0 w1 w2 w3]; simpl in Hkey, Hval, Hd;
    unfold blanks in Hd; flatten_app Hd.
  - pose proof (drop_blanks _ _ _ _ Hd) as Hd1.
    pose proof (drop_next _ _ _ _ Hd1) as Hd2.
    pose proof (drop_blanks _ _ _ _ Hd2) as Hd3.
    run_read. run_read. cbn [fst snd].
    rewrite Hkey, bool_decide_eq_true_2 by reflexivity. cbn [andb].
    unfold attrs_setitem. rewrite run_assign.
    run_read. run_read.
    destruct Ht; subst t.
    + rewrite !bool_decide_eq_true_2 by reflexivity.
      eexists. split; [reflexivity|].
      apply (drop_next _ _ _ _ Hd3).
    + rewrite !bool_decide_eq_false_2 by discriminate.
      run_read. rewrite bool_decide_eq_false_2 by discriminate.
      eexists. split; [reflexivity|exact Hd3].
  - pose proof (drop_blanks _ _ _ _ Hd) as Hd1.
    pose proof (drop_next _ _ _ _ Hd1) as Hd2.
    pose proof (drop_blanks _ _ _ _ Hd2) as Hd3.
    pose proof (drop_next _ _ _ _ Hd3) as Hd4.
    pose proof (drop_blanks _ _ _ _ Hd4) as Hd5.
    pose proof (drop_next _ _ _ _ Hd5) as Hd6.
    pose proof (drop_blanks _ _ _ _ Hd6) as Hd7.
    run_read. run_read. cbn [fst snd].
    rewrite Hkey, bool_decide_eq_true_2 by reflexivity. cbn [andb].
    unfold attrs_setitem. rewrite run_assign.
    run_read. run_read.
    rewrite bool_decide_eq_false_2 by discriminate.
    run_read.
    rewrite bool_decide_eq_true_2 by reflexivity.
    run_read.
    erewrite run_bind_OK
      by (eapply attr_value_logical; [exact Hval|simpl tokens; eassumption]).
    run_read. run_read.
    unfold set_attrs at 1 2;
      cbn [name path tokens attrs bases docstring properties methods].
    rewrite insert_insert_eq.
    destruct Ht; subst t.
    + rewrite !bool_decide_eq_true_2 by reflexivity.
      eexists. split; [reflexivity|].
      apply (drop_next _ _ _ _ Hd7).
    + rewrite !bool_decide_eq_false_2 by discriminate.
      eexists. split; [reflexivity|exact Hd7].
Qed.

Lemma set_attrs_id self : set_attrs (attrs self) self = self.
Proof. destruct self; reflexivity. Qed.

Lemma attr_cond_run self idx t rest :
  drop idx (tokens self) = t :: rest ->
  attr_cond idx self = (self, OK (negb (bool_decide (t = rparen)))).
Proof. intros Hd. unfold attr_cond, reads. f_equal. cursor. Qed.

(** The attribute loop over the entries of a list, up to the closing
    parenthesis. *)
Lemma attr_loop_items l : forall self idx fuel rest,
  Forall item_ok l ->
  drop idx (tokens self) = items_tokens l ++ rparen :: rest ->
  length l < fuel ->
  exists idx',
    while_ fuel attr_cond attr_body idx self =
      (set_attrs (items_attrs l (attrs self)) self, OK idx') /\
    drop idx' (tokens self) = rparen :: rest.
Proof.
  induction l as [|a l IH]; intros self idx fuel rest Hok Hd Hfuel;
    (destruct fuel as [|fuel]; [simpl in Hfuel; lia|]); rewrite while_S.
  - simpl in Hd.
    erewrite run_bind_OK by (eapply attr_cond_run; eassumption).
    rewrite bool_decide_eq_true_2 by reflexivity. cbn [negb].
    exists idx. split; [|assumption].
    unfold items_attrs; simpl. rewrite set_attrs_id. reflexivity.
  - apply Forall_cons in Hok as [Ha Hok].
    assert (exists t rest', (t = comma \/ t = rparen) /\
              drop idx (tokens self) = item_tokens a ++ t :: rest' /\
              (if bool_decide (t = comma) then rest' else t :: rest') =
                items_tokens l ++ rparen :: rest) as (t & rest' & Ht & Hd' & Hnext).
    { simpl in Hd. rewrite <- app_assoc in Hd. destruct l as [|b l].
      - exists rparen, rest. auto.
      - exists comma, (items_tokens (b :: l) ++ rparen :: rest). auto. }
    destruct (item_tokens_head a (t :: rest')) as (t0 & r0 & Hhd & Hne).
    rewrite Hhd in Hd'.
    erewrite run_bind_OK by (eapply attr_cond_run; eassumption).
    rewrite bool_decide_eq_false_2 by assumption. cbn [negb].
    rewrite <- Hhd in Hd'.
    destruct (attr_body_item self idx a t rest' Ha Ht Hd') as (idx1 & Hbody & Hd1).
    erewrite run_bind_OK by exact Hbody.
    rewrite Hnext in Hd1.
    destruct (IH (set_attrs (<[item_key a := item_value a]> (attrs self)) self)
                idx1 fuel rest Hok Hd1 ltac:(simpl in Hfuel; lia))
      as (idx' & Hloop & Hd2).
    exists idx'. split; [|exact Hd2].
    rewrite Hloop. reflexivity.
Qed.

Lemma drop_length (tks : list token) idx t rest :
  drop idx tks = t :: rest -> length (t :: rest) <= length tks.
Proof. intros H. rewrite <- H, length_drop. lia. Qed.

Lemma parse_attrs_items self idx l rest :
  Forall item_ok l ->
  drop idx (tokens self) = lparen :: items_tokens l ++ rparen :: rest ->
  exists idx',
    parse_attrs idx self =
      (set_attrs (items_attrs l (attrs self)) self, OK idx') /\
    drop idx' (tokens self) = rest.
Proof.
  intros Hok Hd. unfold parse_attrs. run_read.
  rewrite bool_decide_eq_true_2 by reflexivity.
  pose proof (drop_next _ _ _ _ Hd) as Hd1.
  assert (Hfuel : length l < loop_fuel self).
  { apply drop_length in Hd. simpl in Hd. rewrite length_app in Hd.
    pose proof (length_items_tokens l). unfold loop_fuel. lia. }
  destruct (attr_loop_items l self (idx + 1) (loop_fuel self) rest Hok Hd1 Hfuel)
    as (idx' & Hloop & Hd2).
  unfold while at 1. rewrite run_bind, Hloop.
  exists (idx' + 1). split; [reflexivity|].
  apply (drop_next _ _ _ _ Hd2).
Qed.

(** The parse of such a header: what is left are the superclasses and the
    docstring, from the token after the header on. *)
Lemma parse_tokens_header self w0 al w1 w2 t rest :
  attr_list_ok al -> is_blank t = false ->
  tokens self = header_tokens (name self) w0 al w1 w2 ++ t :: rest ->
  exists idx,
    parse_tokens self =
      (parse_bases idx ≫= parse_docstring)
        (set_attrs (attr_list_attrs al (attrs self)) self) /\
    drop idx (tokens self) = t :: rest.
Proof.
  intros Hok Ht Htk. unfold parse_tokens. cbn [Nat.add].
  assert (Hd : drop 0 (tokens self) =
               header_tokens (name self) w0 al w1 w2 ++ t :: rest)
    by (rewrite <- Htk; reflexivity).
  unfold header_tokens, blanks in Hd. flatten_app Hd.
  unfold classdef in Hd. run_read.
  rewrite bool_decide_eq_true_2 by reflexivity. cbn [negb].
  pose proof (drop_next _ _ _ _ Hd) as Hd1. cbn [Nat.add] in Hd1.
  destruct al as [l|]; cbn [attr_list_tokens attr_list_ok attr_list_attrs] in *.
  - flatten_app Hd1.
    pose proof (drop_blanks _ _ _ _ Hd1) as Hd2.
    run_read.
    destruct (parse_attrs_items self (1 + w0) l _ Hok Hd2) as (idx1 & Hattrs & Hd3).
    erewrite run_bind_OK by exact Hattrs.
    erewrite run_bind_OK
      by (eapply (parse_classname_run _ _ w1 w2); [exact Hd3|exact Ht]).
    eexists. split; [reflexivity|].
    apply drop_blanks in Hd3. apply drop_next in Hd3. apply drop_blanks in Hd3.
    exact Hd3.
  - cbn [app] in Hd1. rewrite app_assoc, <- replicate_add in Hd1.
    pose proof (drop_blanks _ _ _ _ Hd1) as Hd2.
    run_read.
    erewrite run_bind_OK
      by (eapply parse_attrs_none; [exact Hd2|discriminate]).
    erewrite run_bind_OK
      by (eapply (parse_classname_run _ _ 0 w2); [exact Hd2|exact Ht]).
    eexists. split; [rewrite set_attrs_id; reflexivity|].
    apply drop_next in Hd2. apply drop_blanks in Hd2.
    rewrite Nat.add_0_r. exact Hd2.
Qed.

(** A header with no superclasses and no docstring. *)
Lemma new_MatClass_plain nm pth w0 al w1 w2 ind t rest :
  attr_list_ok al -> quiet_tail ind t ->
  let tks := header_tokens nm w0 al w1 w2 ++ newline :: ind ++ t :: rest in
  new_MatClass nm pth tks =
    OK (mkMatClass nm pth tks (attr_list_attrs al ∅) [] EmptyString ∅ ∅).
Proof.
  intros Hok (Hind & Ht & Hc) tks.
  unfold new_MatClass. rewrite init_start.
  destruct (parse_tokens_header (start nm pth tks) w0 al w1 w2 newline
              (ind ++ t :: rest) Hok eq_refl eq_refl) as (idx & -> & Hd).
  erewrite run_bind_OK by (eapply parse_bases_newline; exact Hd).
  apply drop_next in Hd.
  erewrite parse_docstring_none by eassumption.
  reflexivity.
Qed.

(** A header with no superclasses whose tokens end at the newline, or in
    the indentation after it: the constructor looks for the end of the
    indentation past the last token. *)
Lemma new_MatClass_truncated nm pth w0 al w1 w2 ind :
  attr_list_ok al ->
  Forall (fun x => is_indent x = true) ind ->
  new_MatClass nm pth (header_tokens nm w0 al w1 w2 ++ newline :: ind) =
    Raise IndexError.
Proof.
  intros Hok Hind.
  unfold new_MatClass. rewrite init_start.
  destruct (parse_tokens_header
              (start nm pth (header_tokens nm w0 al w1 w2 ++ newline :: ind))
              w0 al w1 w2 newline ind Hok eq_refl eq_refl) as (idx & -> & Hd).
  erewrite run_bind_OK by (eapply parse_bases_newline; exact Hd).
  apply drop_next in Hd.
  unfold parse_docstring.
  erewrite run_reads_Raise; [reflexivity|].
  unfold _indent. cbn [tokens set_attrs] in *. rewrite Hd.
  apply scan_end, Hind.
Qed.

(** ** The superclass loop on a chain of a known shape *)
















Lemma is_indent_whitespace t : is_indent t = true -> is_whitespace t = true.
Proof.
  unfold is_indent, is_whitespace.
  intros [H1 H2]%andb_prop. rewrite H1. cbn [andb].
  apply bool_decide_eq_true in H2. apply bool_decide_eq_true.
  rewrite !elem_of_cons in *. tauto.
Qed.


(** ** The attribute list, seen from the whole constructor *)

Lemma items_attrs_entries l l' m :
  item_entry <$> l = item_entry <$> l' -> items_attrs l m = items_attrs l' m.
Proof.
  revert l' m. induction l as [|a l IH]; intros [|a' l'] m H; try discriminate.
  - reflexivity.
  - injection H as Hk Hv Hl. unfold items_attrs. cbn [foldl].
    rewrite Hk, Hv. apply IH, Hl.
Qed.

Lemma items_attrs_lookup_notin l m k :
  k ∉ item_key <$> l -> items_attrs l m !! k = m !! k.
Proof.
  revert m. induction l as [|a l IH]; intros m Hk; [reflexivity|].
  apply not_elem_of_cons in Hk as [Hne Hk].
  unfold items_attrs in *. cbn [foldl]. rewrite IH by exact Hk.
  apply lookup_insert_ne. congruence.
Qed.

Lemma items_attrs_lookup l m a :
  NoDup (item_key <$> l) -> a ∈ l ->
  items_attrs l m !! item_key a = Some (item_value a).
Proof.
  revert m. induction l as [|b l IH]; intros m Hnd Hin.
  - inversion Hin.
  - cbn [fmap list_fmap] in Hnd. apply NoDup_cons in Hnd as [Hb Hnd].
    unfold items_attrs in *. cbn [foldl].
    apply elem_of_cons in Hin as [->|Hin].
    + fold (items_attrs l (<[item_key b:=item_value b]> m)).
      rewrite items_attrs_lookup_notin by exact Hb.
      apply lookup_insert_eq.
    + apply IH; assumption.
Qed.

Lemma items_attrs_dom l m :
  dom (items_attrs l m) = list_to_set (item_key <$> l) ∪ dom m.
Proof.
  revert m. induction l as [|a l IH]; intros m.
  - cbn. symmetry. apply (left_id_L ∅ (∪)).
  - unfold items_attrs in *. cbn [foldl fmap list_fmap list_to_set].
    rewrite IH, dom_insert_L.
    rewrite (assoc_L (∪)), (comm_L (∪) _ {[item_key a]}). reflexivity.
Qed.

(** The parse up to the closing parenthesis of an attribute list. *)
Lemma parse_tokens_attrs self w0 l rest :
  Forall item_ok l ->
  tokens self = classdef :: blanks w0 ++ lparen :: items_tokens l ++ rparen :: rest ->
  exists idx,
    parse_tokens self =
      (idx ← parse_classname idx; idx ← parse_bases idx; parse_docstring idx)
        (set_attrs (items_attrs l (attrs self)) self) /\
    drop idx (tokens self) = rest.
Proof.
  intros Hok Htk. unfold parse_tokens. cbn [Nat.add].
  assert (Hd : drop 0 (tokens self) =
               classdef :: replicate w0 blank ++ lparen :: items_tokens l ++ rparen :: rest)
    by (rewrite Htk; reflexivity).
  unfold classdef in Hd. run_read.
  rewrite bool_decide_eq_true_2 by reflexivity. cbn [negb].
  pose proof (drop_next _ _ _ _ Hd) as Hd1. cbn [Nat.add] in Hd1.
  pose proof (drop_blanks _ _ _ _ Hd1) as Hd2.
  run_read.
  destruct (parse_attrs_items self (1 + w0) l _ Hok Hd2) as (idx1 & Hattrs & Hd3).
  erewrite run_bind_OK by exact Hattrs.
  eauto.
Qed.

Lemma after_attrs_same_attrs idx :
  respects same_attrs
    (idx ← parse_classname idx; idx ← parse_bases idx; parse_docstring idx).
Proof.
  repeat respects_step.
  - apply respects_parse_classname; exact _.
  - apply respects_parse_bases; [exact _|]. intros v _ self. reflexivity.
  - apply respects_parse_docstring; [exact _|]. intros v self. reflexivity.
Qed.




(** ** The fuel is enough *)

Section Fuel.
Variable tks : list token.

Lemma total_ret {A} (a : A) (Q : A -> Prop) : Q a -> total tks (mret a) Q.
Proof. intros HQ self Htk. split; assumption. Qed.

Lemma total_raise {A} e (Q : A -> Prop) : total tks (raise e) Q.
Proof. intros self Htk. split; [assumption|exact I]. Qed.

Lemma total_bind {A B} (m : M MatClass A) (k : A -> M MatClass B) Q1 Q2 :
  total tks m Q1 -> (forall a, Q1 a -> total tks (k a) Q2) -> total tks (m ≫= k) Q2.
Proof.
  intros Hm Hk self Htk. rewrite run_bind. specialize (Hm self Htk).
  destruct (m self) as [self' [a|e|]]; cbn [fst snd] in *.
  - destruct Hm as [Htk' Ha]. apply (Hk a Ha self' Htk').
  - destruct Hm as [Htk' _]. split; [assumption|exact I].
  - destruct Hm as [_ []].
Qed.

Lemma total_weaken {A} (m : M MatClass A) (Q Q' : A -> Prop) :
  total tks m Q -> (forall a, Q a -> Q' a) -> total tks m Q'.
Proof.
  intros Hm HQ self Htk. destruct (Hm self Htk) as [Htk' H].
  split; [assumption|]. destruct (m self).2; auto.
Qed.

Lemma total_assign (f : MatClass -> MatClass) (Q : unit -> Prop) :
  (forall self, tokens (f self) = tokens self) -> Q tt -> total tks (assign f) Q.
Proof.
  intros Hf HQ self Htk. split; [|exact HQ]. cbn. rewrite Hf. exact Htk.
Qed.

Lemma total_attrs_append k v : total tks (attrs_append k v) (fun _ => True).
Proof.
  intros self Htk. unfold attrs_append.
  destruct (attrs self !! k) as [[l|s]|]; cbn; auto.
Qed.

Lemma total_tokens_at idx :
  total tks (reads (fun self => tokens_at self idx)) (fun t => tks !! idx = Some t).
Proof.
  intros self Htk. split; [assumption|]. cbn. unfold tokens_at. rewrite Htk.
  destruct (tks !! idx); auto.
Qed.

Lemma total_tk_eq idx tk :
  total tks (reads (fun self => _tk_eq self idx tk))
    (fun b => exists t, tks !! idx = Some t /\ b = bool_decide (t = tk)).
Proof.
  intros self Htk. split; [assumption|]. cbn.
  destruct (drop idx (tokens self)) as [|t r] eqn:Hd.
  - unfold _tk_eq. rewrite (tokens_at_end _ _ Hd). exact I.
  - rewrite (tk_eq_drop _ _ _ _ _ Hd). exists t. split; [|reflexivity].
    rewrite <- Htk. apply (drop_lookup _ _ _ _ Hd).
Qed.

Lemma total_tk_ne idx tk :
  total tks (reads (fun self => _tk_ne self idx tk))
    (fun b => exists t, tks !! idx = Some t /\ b = negb (bool_decide (t = tk))).
Proof.
  intros self Htk. split; [assumption|]. cbn.
  destruct (drop idx (tokens self)) as [|t r] eqn:Hd.
  - unfold _tk_ne. rewrite (tokens_at_end _ _ Hd). exact I.
  - rewrite (tk_ne_drop _ _ _ _ _ Hd). exists t. split; [|reflexivity].
    rewrite <- Htk. apply (drop_lookup _ _ _ _ Hd).
Qed.

Lemma scan_bound p (l : list token) :
  match scan p l with
  | OK n => n < length l
  | Raise _ => True
  | OutOfFuel => False
  end.
Proof.
  induction l as [|t l IH]; cbn; [exact I|].
  destruct (p t); [|lia].
  destruct (scan p l); cbn; auto. lia.
Qed.

Lemma total_scan p idx :
  total tks (reads (fun self => scan p (drop idx (tokens self))))
    (fun n => idx + n < length tks).
Proof.
  intros self Htk. split; [assumption|]. cbn. rewrite Htk.
  pose proof (scan_bound p (drop idx tks)) as H.
  destruct (scan p (drop idx tks)); auto.
  rewrite length_drop in H. lia.
Qed.

(** A loop whose condition holds only at an index inside the tokens, and
    whose body moves the index forward, has fuel enough. *)
Lemma total_while_ {L} (ix : L -> nat) (Inv C : L -> Prop)
    (cond : L -> M MatClass bool) (body : L -> M MatClass L) :
  (forall l, C l -> ix l < length tks) ->
  (forall l, Inv l -> total tks (cond l) (fun b => b = true -> C l)) ->
  (forall l, Inv l -> C l -> total tks (body l) (fun l' => Inv l' /\ ix l < ix l')) ->
  forall fuel l, Inv l -> length tks - ix l < fuel ->
    total tks (while_ fuel cond body l) Inv.
Proof.
  intros HC Hcond Hbody. induction fuel as [|fuel IH]; intros l Hl Hfuel; [lia|].
  rewrite while_S. eapply total_bind; [apply (Hcond l Hl)|].
  intros [|] Hb; [|apply total_ret; exact Hl].
  specialize (Hb eq_refl). pose proof (HC l Hb) as Hlt.
  eapply total_bind; [apply (Hbody l Hl Hb)|].
  intros l' [Hl' Hix]. apply IH; [exact Hl'|lia].
Qed.

Lemma total_while {L} (ix : L -> nat) (Inv C : L -> Prop)
    (cond : L -> M MatClass bool) (body : L -> M MatClass L) l :
  (forall l, C l -> ix l < length tks) ->
  (forall l, Inv l -> total tks (cond l) (fun b => b = true -> C l)) ->
  (forall l, Inv l -> C l -> total tks (body l) (fun l' => Inv l' /\ ix l < ix l')) ->
  Inv l ->
  total tks (while cond body l) Inv.
Proof.
  intros HC Hcond Hbody Hl self Htk. unfold while.
  apply (total_while_ ix Inv C cond body HC Hcond Hbody (loop_fuel self) l Hl);
    [|exact Htk].
  unfold loop_fuel. rewrite Htk. lia.
Qed.

End Fuel.

(** Goals [total tks m Q], by the structure of [m] where it starts with a
    read of the cursor, an assignment, a return or a raise. *)
Ltac total_step :=
  lazymatch goal with
  | |- total _ (mbind _ (reads (fun self => tokens_at self _))) _ =>
      eapply total_bind; [apply total_tokens_at|intros ? ?]
  | |- total _ (mbind _ (reads (fun self => _tk_eq self _ _))) _ =>
      eapply total_bind; [apply total_tk_eq|intros ? (? & ? & ?)]
  | |- total _ (mbind _ (reads (fun self => _tk_ne self _ _))) _ =>
      eapply total_bind; [apply total_tk_ne|intros ? (? & ? & ?)]
  | |- total _ (mbind _ (reads (fun self => _blanks self _))) _ =>
      eapply total_bind; [apply (total_scan _ is_blank)|intros ? ?]
  | |- total _ (mbind _ (reads (fun self => _whitespace self _))) _ =>
      eapply total_bind; [apply (total_scan _ is_whitespace)|intros ? ?]
  | |- total _ (mbind _ (reads (fun self => _indent self _))) _ =>
      eapply total_bind; [apply (total_scan _ is_indent)|intros ? ?]
  | |- total _ (mbind _ (assign _)) _ =>
      eapply total_bind;
      [apply (total_assign _ _ (fun _ => True)); [intros ?; reflexivity|exact I]
      |intros ? _]
  | |- total _ (mbind _ (attrs_append _ _)) _ =>
      eapply total_bind; [apply total_attrs_append|intros ? _]
  | |- total _ (mbind _ (if ?b then _ else _)) _ => destruct b eqn:?
  | |- total _ (mbind _ (mret _)) _ =>
      eapply total_bind; [apply (total_ret _ _ (fun _ => True)); exact I|intros ? _]
  | |- total _ (mret _) _ => apply total_ret
  | |- total _ (raise _) _ => apply total_raise
  | |- total _ (if ?b then _ else _) _ => destruct b eqn:?
  end.

(** The arithmetic left over: on the indices. *)
Ltac total_arith :=
  cbn beta zeta in *;
  repeat match goal with
         | |- context [if ?c then _ else _] => destruct c
         end;
  lia.

Section FuelPhases.
Variable tks : list token.

Lemma total_cell_elem_loop idx :
  total tks (while cell_elem_cond cell_elem_body (idx, EmptyString))
    (fun l => idx <= l.1).
Proof.
  apply (total_while tks fst (fun l => idx <= l.1) (fun l => l.1 < length tks)).
  - auto.
  - intros l Hl. unfold cell_elem_cond. repeat total_step.
    + eapply total_weaken; [apply total_tk_ne|].
      intros b (t & Ht & _) _. apply (lookup_lt_Some _ _ _ Ht).
    + discriminate.
  - intros l Hl Hc. unfold cell_elem_body. repeat total_step.
    cbn [fst]. total_arith.
  - cbn [fst]. total_arith.
Qed.

Lemma total_cell_body cls_attr idx :
  total tks (cell_body cls_attr idx) (fun idx' => idx < idx').
Proof.
  unfold cell_body. total_step.
  eapply total_bind; [apply total_cell_elem_loop|]. intros l Hl.
  unfold attrs_setitem. repeat total_step; total_arith.
Qed.

Lemma total_attr_value cls_attr idx :
  total tks (attr_value cls_attr idx) (fun idx' => idx <= idx').
Proof.
  unfold attr_value, attrs_setitem. repeat total_step; try total_arith.
  eapply total_bind.
  - apply (total_while tks id (fun i => idx <= i) (fun i => i < length tks)).
    + auto.
    + intros i Hi. unfold cell_cond. eapply total_weaken; [apply total_tk_ne|].
      intros b (t & Ht & _) _. apply (lookup_lt_Some _ _ _ Ht).
    + intros i Hi Hc. eapply total_weaken; [apply total_cell_body|].
      unfold id. intros i' Hi'. total_arith.
    + total_arith.
  - intros i Hi. apply total_ret. total_arith.
Qed.

Lemma total_attr_body idx :
  total tks (attr_body idx) (fun idx' => idx < idx').
Proof.
  unfold attr_body, attrs_setitem. repeat total_step; try total_arith.
  eapply total_bind; [apply total_attr_value|]. intros i Hi.
  repeat total_step; total_arith.
Qed.

Lemma total_parse_attrs idx :
  total tks (parse_attrs idx) (fun idx' => idx <= idx').
Proof.
  unfold parse_attrs. repeat total_step; try total_arith.
  eapply total_bind.
  - apply (total_while tks id (fun i => idx <= i) (fun i => i < length tks)).
    + auto.
    + intros i Hi. unfold attr_cond. eapply total_weaken; [apply total_tk_ne|].
      intros b (t & Ht & _) _. apply (lookup_lt_Some _ _ _ Ht).
    + intros i Hi Hc. eapply total_weaken; [apply total_attr_body|].
      unfold id. intros i' Hi'. total_arith.
    + total_arith.
  - intros i Hi. apply total_ret. total_arith.
Qed.

Lemma total_parse_classname idx :
  total tks (parse_classname idx) (fun idx' => idx <= idx').
Proof.
  unfold parse_classname. total_step.
  eapply (total_bind _ _ _ (fun _ => True)).
  - intros self Htk.
    destruct (total_tk_ne tks (idx + a) (Token.Name, name self) self Htk)
      as [H1 H2].
    split; [exact H1|]. cbn in *.
    destruct (_tk_ne self (idx + a) (Token.Name, name self)); auto.
  - intros b _. repeat total_step. total_arith.
Qed.

Lemma total_base_name_loop idx :
  total tks (while base_name_cond base_name_body (idx, EmptyString))
    (fun l => idx <= l.1).
Proof.
  apply (total_while tks fst (fun l => idx <= l.1) (fun l => l.1 < length tks)).
  - auto.
  - intros l Hl. unfold base_name_cond. repeat total_step. intros _. total_arith.
  - intros l Hl Hc. unfold base_name_body. repeat total_step.
    cbn [fst]. total_arith.
  - cbn [fst]. total_arith.
Qed.

Lemma total_bases_body idx t :
  tks !! idx = Some t -> t <> newline ->
  total tks (bases_body idx) (fun idx' => idx < idx').
Proof.
  intros Ht Hne. unfold bases_body, bases_append.
  eapply total_bind; [apply (total_scan _ is_blank)|]. intros n Hn.
  eapply total_bind; [apply total_base_name_loop|]. intros l Hl.
  eapply total_bind; [apply total_tk_ne|]. intros b (t' & Ht' & Hb).
  cbn beta in *.
  assert (idx < if b then l.1 + 1 else l.1) as Hprog.
  { destruct (decide (idx < l.1)) as [Hlt|Hge]; [destruct b; lia|].
    assert (l.1 = idx) as Hl1 by lia. rewrite Hl1 in Ht'.
    assert (t' = t) by congruence. subst t' b.
    rewrite bool_decide_eq_false_2 by assumption. cbn [negb]. lia. }
  repeat total_step; total_arith.
Qed.

Lemma total_parse_bases idx :
  total tks (parse_bases idx) (fun idx' => idx <= idx').
Proof.
  unfold parse_bases. repeat total_step; try total_arith.
  eapply total_bind.
  - apply (total_while tks id (fun i => idx <= i)
             (fun i => exists t, tks !! i = Some t /\ t <> newline)).
    + intros i (t & Ht & _). apply (lookup_lt_Some _ _ _ Ht).
    + intros i Hi. unfold bases_cond. eapply total_weaken; [apply total_tk_ne|].
      intros b (t & Ht & ->) Hb. exists t. split; [exact Ht|].
      apply negb_true_iff, bool_decide_eq_false in Hb. exact Hb.
    + intros i Hi (t & Ht & Hne).
      eapply total_weaken; [apply (total_bases_body i t Ht Hne)|].
      unfold id. intros i' Hi'. total_arith.
    + total_arith.
  - intros i Hi. apply total_ret. total_arith.
Qed.

Lemma total_docstring_body idx :
  total tks (docstring_body idx) (fun idx' => idx < idx').
Proof.
  unfold docstring_body, docstring_iadd. do 3 total_step.
  eapply (total_bind _ _ _ (fun i => idx + 1 <= i)).
  - repeat total_step; total_arith.
  - intros i Hi. repeat total_step; total_arith.
Qed.

Lemma total_parse_docstring idx :
  total tks (parse_docstring idx) (fun idx' => idx <= idx').
Proof.
  unfold parse_docstring. repeat total_step; try total_arith.
  apply (total_while tks id (fun i => idx <= i) (fun i => i < length tks)).
  - auto.
  - intros i Hi. unfold docstring_cond. repeat total_step.
    intros _. cbn beta in *. eapply lookup_lt_Some. eassumption.
  - intros i Hi Hc. eapply total_weaken; [apply total_docstring_body|].
    unfold id. intros i' Hi'. total_arith.
  - total_arith.
Qed.

Lemma total_parse_tokens : total tks parse_tokens (fun _ => True).
Proof.
  unfold parse_tokens. repeat total_step.
  eapply total_bind; [apply total_parse_attrs|]. intros i1 _.
  eapply total_bind; [apply total_parse_classname|]. intros i2 _.
  eapply total_bind; [apply total_parse_bases|]. intros i3 _.
  eapply total_weaken; [apply total_parse_docstring|]. auto.
Qed.

End FuelPhases.

(** The constructor never runs out of fuel: for every token list it
    returns a class or raises an exception. *)
Theorem new_MatClass_total nm pth tks :
  (exists c, new_MatClass nm pth tks = OK c) \/
  (exists e, new_MatClass nm pth tks = Raise e).
Proof.
  unfold new_MatClass. rewrite init_start.
  destruct (total_parse_tokens tks (start nm pth tks) eq_refl) as [_ H].
  destruct (parse_tokens (start nm pth tks)) as [self [idx|e|]]; cbn in H.
  - left. eauto.
  - right. eauto.
  - destruct H.
Qed.

(** ** The docstring of indented comment lines *)

Lemma string_app_assoc (s1 s2 s3 : string) :
  (s1 +:+ s2) +:+ s3 = s1 +:+ (s2 +:+ s3).
Proof.
  induction s1 as [|a s1 IH]; [reflexivity|].
  change (String a ((s1 +:+ s2) +:+ s3) = String a (s1 +:+ (s2 +:+ s3))).
  rewrite IH. reflexivity.
Qed.

Lemma string_app_nil_r (s : string) : s +:+ EmptyString = s.
Proof.
  induction s as [|a s IH]; [reflexivity|].
  change (String a (s +:+ EmptyString) = String a s). rewrite IH. reflexivity.
Qed.


(** One round of the docstring loop, on a comment and its newline; the
    next line, or what ends the docstring, is [ind ++ t :: rest]. *)
Lemma docstring_body_line self idx c ind t rest :
  drop idx (tokens self) = (Token.Comment, c) :: newline :: ind ++ t :: rest ->
  Forall (fun x => is_indent x = true) ind -> is_indent t = false ->
  docstring_body idx self =
    (set_docstring (docstring self +:+ c +:+ NL) self,
     OK (idx + 1 + 1 + length ind)) /\
  drop (idx + 1 + 1 + length ind) (tokens self) = t :: rest.
Proof.
  intros Hd Hind Ht.
  pose proof (drop_next _ _ _ _ Hd) as Hd1.
  pose proof (drop_next _ _ _ _ Hd1) as Hd2.
  pose proof (drop_skip _ _ _ _ Hd2) as Hd3.
  split; [|exact Hd3].
  unfold docstring_body, docstring_iadd. run_read. rewrite run_assign.
  run_read. rewrite bool_decide_eq_true_2 by reflexivity.
  erewrite run_bind_OK.
  2:{ run_read. rewrite run_assign. reflexivity. }
  erewrite run_reads_OK by (eapply indent_drop; simpl tokens; eassumption).
  cbn [fst snd set_docstring docstring name path tokens attrs bases properties methods].
  rewrite string_app_assoc.
  destruct ind; cbn [length int_truth]; rewrite ?Nat.add_0_r; reflexivity.
Qed.

(** The docstring loop over comment lines, the index on the comment of the
    first one. *)
Lemma docstring_loop_lines l : forall self idx fuel c ind t rest,
  Forall doc_line_ok l ->
  Forall (fun x => is_indent x = true) ind -> is_indent t = false ->
  t.1 <> Token.Comment ->
  drop idx (tokens self) =
    (Token.Comment, c) :: newline :: doc_tokens l ++ ind ++ t :: rest ->
  S (length l) < fuel ->
  exists idx',
    while_ fuel docstring_cond docstring_body idx self =
      (set_docstring (docstring self +:+ c +:+ NL +:+ doc_text l) self, OK idx') /\
    drop idx' (tokens self) = t :: rest.
Proof.
  induction l as [|d l IH]; intros self idx fuel c ind t rest Hok Hind Ht Hc Hd Hfuel;
    (destruct fuel as [|fuel]; [lia|]); rewrite while_S;
    erewrite run_bind_OK by (eapply docstring_cond_run; eassumption);
    rewrite bool_decide_eq_true_2 by reflexivity.
  - cbn [doc_tokens flat_map app] in Hd.
    destruct (docstring_body_line self idx c ind t rest Hd Hind Ht) as [Hbody Hd1].
    erewrite run_bind_OK by exact Hbody.
    destruct fuel as [|fuel]; [cbn [length] in Hfuel; lia|]. rewrite while_S.
    erewrite run_bind_OK by (eapply docstring_cond_run; simpl tokens; eassumption).
    rewrite bool_decide_eq_false_2 by assumption.
    eexists. split; [|exact Hd1].
    cbn [doc_text]. rewrite string_app_nil_r. reflexivity.
  - apply Forall_cons in Hok as [Hdi Hok].
    cbn [doc_tokens flat_map] in Hd. fold (doc_tokens l) in Hd.
    unfold doc_line_tokens in Hd. flatten_app Hd.
    destruct (docstring_body_line self idx c (line_indent d) (Token.Comment, line_text d)
                _ Hd Hdi eq_refl) as [Hbody Hd1].
    erewrite run_bind_OK by exact Hbody.
    destruct (IH (set_docstring (docstring self +:+ c +:+ NL) self) _ fuel
                (line_text d) ind t rest Hok Hind Ht Hc Hd1
                ltac:(cbn [length] in Hfuel; lia)) as (idx' & Hloop & Hd2).
    exists idx'. split; [|exact Hd2].
    rewrite Hloop.
    cbn [fst snd set_docstring docstring name path tokens attrs bases properties methods doc_text].
    rewrite !string_app_assoc. reflexivity.
Qed.

(** The docstring phase on one or more comment lines, the first of them
    indented, that a token other than a comment ends. *)
Lemma parse_docstring_lines self idx d l ind t rest :
  line_indent d <> [] ->
  Forall doc_line_ok (d :: l) ->
  Forall (fun x => is_indent x = true) ind -> is_indent t = false ->
  t.1 <> Token.Comment ->
  drop idx (tokens self) = doc_tokens (d :: l) ++ ind ++ t :: rest ->
  exists idx',
    parse_docstring idx self =
      (set_docstring (docstring self +:+ doc_text (d :: l)) self, OK idx') /\
    drop idx' (tokens self) = t :: rest.
Proof.
  intros Hne Hok Hind Ht Hc Hd.
  apply Forall_cons in Hok as [Hdi Hok].
  cbn [doc_tokens flat_map] in Hd. fold (doc_tokens l) in Hd.
  unfold doc_line_tokens in Hd. flatten_app Hd.
  pose proof (drop_skip _ _ _ _ Hd) as Hd1.
  unfold parse_docstring.
  erewrite run_reads_OK by (eapply indent_drop; [exact Hd|exact Hdi|reflexivity]).
  destruct (line_indent d) as [|i0 li] eqn:Eli; [congruence|].
  cbn [length int_truth].
  assert (Hfuel : S (length l) < loop_fuel self).
  { apply drop_length in Hd1. cbn [length] in Hd1. rewrite length_app in Hd1.
    assert (length l <= length (doc_tokens l)).
    { clear. induction l as [|d l IH]; [reflexivity|].
      cbn [doc_tokens flat_map length]. fold (doc_tokens l).
      unfold doc_line_tokens. rewrite !length_app. cbn [length]. lia. }
    unfold loop_fuel. lia. }
  destruct (docstring_loop_lines l self _ (loop_fuel self) (line_text d) ind t rest
              Hok Hind Ht Hc Hd1 Hfuel) as (idx' & Hloop & Hd2).
  exists idx'. split; [|exact Hd2].
  cbn [length] in Hloop. unfold while. rewrite Hloop. cbn [doc_text]. reflexivity.
Qed.

(** A header with a docstring: the first comment line is indented, the
    lines after it are comment lines with any indentation, also none, and
    a token other than a comment ends them. The docstring is the text of
    the comment and newline tokens of all these lines. *)
Theorem new_MatClass_docstring nm pth w0 al w1 w2 d l ind t rest :
  attr_list_ok al ->
  line_indent d <> [] -> Forall doc_line_ok (d :: l) ->
  Forall (fun x => is_indent x = true) ind -> is_indent t = false ->
  t.1 <> Token.Comment ->
  let tks := header_tokens nm w0 al w1 w2 ++
             newline :: doc_tokens (d :: l) ++ ind ++ t :: rest in
  new_MatClass nm pth tks =
    OK (mkMatClass nm pth tks (attr_list_attrs al ∅) [] (doc_text (d :: l)) ∅ ∅).
Proof.
  intros Hal Hne Hok Hind Ht Hc tks.
  unfold new_MatClass. rewrite init_start.
  destruct (parse_tokens_header (start nm pth tks) w0 al w1 w2 newline
              (doc_tokens (d :: l) ++ ind ++ t :: rest) Hal eq_refl eq_refl)
    as (idx & -> & Hd).
  erewrite run_bind_OK by (eapply parse_bases_newline; exact Hd).
  apply drop_next in Hd.
  destruct (parse_docstring_lines
              (set_attrs (attr_list_attrs al (attrs (start nm pth tks)))
                 (start nm pth tks))
              (idx + 1) d l ind t rest Hne Hok Hind Ht Hc Hd)
    as (idx' & -> & _).
  reflexivity.
Qed.

(** ** Cell arrays, on two inputs *)

(** [classdef (InferiorClasses = {?a, ?b }) Foo], a newline and [end]: an
    element of a cell array ends at a blank or a comma. *)
Example cell_array_spaced :
  exists c,
    new_MatClass "Foo" "mfiles"
      [classdef; blank; lparen; (Token.Name, "InferiorClasses"); blank; equals;
       blank; (Token.Punctuation, "{"); (Token.Operator, "?"); (Token.Name, "a");
       comma; blank; (Token.Operator, "?"); (Token.Name, "b"); blank;
       (Token.Punctuation, "}"); rparen; blank; (Token.Name, "Foo"); newline;
       (Token.Keyword, "end"); newline] = OK c /\
    attrs c = {[ "InferiorClasses" := AttrList ["?a"; "?b"] ]}.
Proof. eexists. split; vm_compute; reflexivity. Qed.

(** [classdef (InferiorClasses = {?a}) Foo], a newline and [end]: the
    closing brace right after an element is read as part of the element,
    and the loop over the cell array runs on to the end of the tokens. *)
Example cell_array_tight :
  new_MatClass "Foo" "mfiles"
    [classdef; blank; lparen; (Token.Name, "InferiorClasses"); blank; equals;
     blank; (Token.Punctuation, "{"); (Token.Operator, "?"); (Token.Name, "a");
     (Token.Punctuation, "}"); rparen; blank; (Token.Name, "Foo"); newline;
     (Token.Keyword, "end"); newline] = Raise IndexError.
Proof. vm_compute. reflexivity. Qed.

(** * The statements of the specification, C1 to C10 *)

(** C1, as amended. A token list made of [classdef], the expected name
    and a newline, with any runs of blanks before and after the name, and
    after the newline a token that opens no docstring (it is no
    indentation, and no comment when indentation comes before it), makes
    the constructor return a class with no attributes, no bases and an
    empty docstring. *)
Theorem plain_header_parses nm pth w1 w2 ind t rest :
  quiet_tail ind t ->
  let tks := classdef :: blanks w1 ++ (Token.Name, nm) :: blanks w2 ++
             newline :: ind ++ t :: rest in
  exists c,
    new_MatClass nm pth tks = OK c /\
    name c = nm /\ path c = pth /\ tokens c = tks /\
    attrs c = ∅ /\ bases c = [] /\ docstring c = EmptyString.
Proof.
  intros Hq tks.
  pose proof (new_MatClass_plain nm pth w1 None 0 w2 ind t rest I Hq) as H.
  cbn zeta in H. unfold header_tokens in H.
  cbn [attr_list_tokens attr_list_attrs blanks replicate app] in H.
  rewrite <- app_assoc in H. cbn [app] in H. fold (blanks w1) (blanks w2) in H.
  eexists. split; [exact H|]. cbn. auto 10.
Qed.

(** C1, a witness: [classdef Foo], a newline and [end]. *)
Lemma plain_header_parses_witness :
  quiet_tail [] (Token.Keyword, "end") /\
  exists c,
    new_MatClass "Foo" "mfiles"
      [classdef; blank; (Token.Name, "Foo"); newline; (Token.Keyword, "end")]
      = OK c /\
    name c = "Foo" /\ path c = "mfiles" /\
    tokens c =
      [classdef; blank; (Token.Name, "Foo"); newline; (Token.Keyword, "end")] /\
    attrs c = ∅ /\ bases c = [] /\ docstring c = EmptyString.
Proof.
  assert (Hq : quiet_tail [] (Token.Keyword, "end")).
  { split; [constructor|]. split; [reflexivity|]. intros H. congruence. }
  split; [exact Hq|].
  exact (plain_header_parses "Foo" "mfiles" 1 0 [] (Token.Keyword, "end") [] Hq).
Defined.

(** C1, as stated, fails: on the tokens of [classdef Foo] and a newline,
    with nothing after it, the constructor reads past the end of the list
    when it looks for the indentation of a docstring, and raises
    [IndexError]. *)
Lemma plain_header_truncated :
  ~ exists c,
      new_MatClass "Foo" "mfiles" [classdef; blank; (Token.Name, "Foo"); newline]
        = OK c /\
      attrs c = ∅ /\ bases c = [] /\ docstring c = EmptyString.
Proof.
  assert (H : new_MatClass "Foo" "mfiles"
                [classdef; blank; (Token.Name, "Foo"); newline] = Raise IndexError)
    by (vm_compute; reflexivity).
  intros (c & Hc & _). rewrite H in Hc. discriminate.
Qed.

(** C2. A token list whose first token is not [(Keyword, "classdef")]
    makes the constructor raise the [TypeError] of an object that is not a
    class; the caller gets no instance. *)
Theorem not_a_class_raises nm pth t rest :
  t <> (Token.Keyword, "classdef") ->
  new_MatClass nm pth (t :: rest) = Raise not_a_class /\
  forall c, new_MatClass nm pth (t :: rest) <> OK c.
Proof.
  intros Ht.
  assert (H : new_MatClass nm pth (t :: rest) = Raise not_a_class).
  { unfold new_MatClass. rewrite init_start. unfold parse_tokens.
    assert (Hd : drop 0 (tokens (start nm pth (t :: rest))) = t :: rest)
      by reflexivity.
    run_read. rewrite bool_decide_eq_false_2 by assumption. reflexivity. }
  split; [exact H|]. intros c Hc. rewrite H in Hc. discriminate.
Qed.

(** C2, a witness: the tokens of a function file. *)
Lemma not_a_class_raises_witness :
  (Token.Keyword, "function") <> (Token.Keyword, "classdef") /\
  new_MatClass "foo" "mfiles" [(Token.Keyword, "function"); blank; (Token.Name, "foo")]
    = Raise not_a_class.
Proof.
  assert (Ht : (Token.Keyword, "function") <> (Token.Keyword, "classdef"))
    by discriminate.
  split; [exact Ht|].
  exact (proj1 (not_a_class_raises "foo" "mfiles" (Token.Keyword, "function")
                  [blank; (Token.Name, "foo")] Ht)).
Defined.

(** C3. A header whose attribute list holds class attributes, each with
    the value [true] or [false]: in every class the constructor returns,
    [attrs] has the names of the list as its keys and maps each name to
    the text of its value (to that of the last entry, if a name comes
    twice); the widths of the runs of blanks around the names, [=], the
    values and the commas do not matter. The constructor does return a
    class when the name, a newline and no docstring follow the list. *)
Theorem logical_attributes_parsed nm pth w0 l rest :
  Forall item_ok l -> Forall is_logical l ->
  let tks := classdef :: blanks w0 ++ lparen :: items_tokens l ++ rparen :: rest in
  (forall c, new_MatClass nm pth tks = OK c ->
     attrs c = items_attrs l ∅ /\
     dom (attrs c) = list_to_set (item_key <$> l) /\
     (NoDup (item_key <$> l) ->
      forall k v u0 u1 u2 u3, Logical k v u0 u1 u2 u3 ∈ l ->
        attrs c !! k = Some (AttrStr v)) /\
     (forall w0' l' rest' c',
        item_entry <$> l' = item_entry <$> l ->
        new_MatClass nm pth
          (classdef :: blanks w0' ++ lparen :: items_tokens l' ++ rparen :: rest')
          = OK c' ->
        attrs c' = attrs c)) /\
  (forall w1 w2 ind t rest',
     rest = blanks w1 ++ (Token.Name, nm) :: blanks w2 ++ newline :: ind ++ t :: rest' ->
     quiet_tail ind t ->
     exists c, new_MatClass nm pth tks = OK c).
Proof.
  intros Hok _ tks.
  assert (Hattrs : forall w l rest c, Forall item_ok l ->
            new_MatClass nm pth
              (classdef :: blanks w ++ lparen :: items_tokens l ++ rparen :: rest) = OK c ->
            attrs c = items_attrs l ∅).
  { clear. intros w l rest c Hok Hc. apply new_MatClass_OK in Hc. subst c.
    destruct (parse_tokens_attrs (start nm pth _) w l rest Hok eq_refl)
      as (idx & -> & _).
    rewrite (after_attrs_same_attrs idx). reflexivity. }
  split.
  - intros c Hc. pose proof (Hattrs _ _ _ _ Hok Hc) as Ha.
    split; [exact Ha|]. split; [|split].
    + rewrite Ha, items_attrs_dom, dom_empty_L. apply (right_id_L ∅ (∪)).
    + intros Hnd k v u0 u1 u2 u3 Hin. rewrite Ha.
      apply (items_attrs_lookup l ∅ _ Hnd Hin).
    + intros w0' l' rest' c' Hl' Hc'. rewrite Ha.
      assert (Hok' : Forall item_ok l').
      { clear -Hok Hl'. revert l' Hl'.
        induction Hok as [|a l Ha Hok IH]; intros [|a' l'] H; try discriminate;
          constructor.
        - injection H as Hk Hv _. destruct Ha as [Ha1 Ha2].
          destruct a, a'; cbn in *; try discriminate; subst; split; auto.
          injection Hv as ->. exact Ha2.
        - injection H as _ _ H. apply IH, H. }
      rewrite (Hattrs _ _ _ _ Hok' Hc'). apply items_attrs_entries, Hl'.
  - intros w1 w2 ind t rest' -> Hq.
    pose proof (new_MatClass_plain nm pth w0 (Some l) w1 w2 ind t rest' Hok Hq) as H.
    cbn zeta in H. unfold header_tokens in H. cbn [attr_list_tokens] in H.
    repeat (rewrite <- app_assoc in H || rewrite <- app_comm_cons in H).
    cbn [app] in H. eexists. exact H.
Qed.

(** C3, a witness: [classdef (Sealed = true,  Hidden=   false ) Foo], a
    newline and [end]. *)
Lemma logical_attributes_parsed_witness :
  let l := [Logical "Sealed" "true" 0 1 1 0; Logical "Hidden" "false" 2 0 3 1] in
  let rest := [blank; (Token.Name, "Foo"); newline; (Token.Keyword, "end")] in
  Forall item_ok l /\ Forall is_logical l /\
  exists c,
    new_MatClass "Foo" "mfiles"
      (classdef :: blanks 1 ++ lparen :: items_tokens l ++ rparen :: rest) = OK c /\
    attrs c = items_attrs l ∅.
Proof.
  intros l rest.
  assert (Hok : Forall item_ok l).
  { repeat first [apply List.Forall_nil | apply List.Forall_cons];
      (split; [vm_compute; reflexivity|cbn; auto]). }
  assert (Hlog : Forall is_logical l).
  { repeat first [apply List.Forall_nil | apply List.Forall_cons]; exact I. }
  split; [exact Hok|]. split; [exact Hlog|].
  assert (H : exists c,
             new_MatClass "Foo" "mfiles"
               (classdef :: blanks 1 ++ lparen :: items_tokens l ++ rparen :: rest)
             = OK c) by (eexists; vm_compute; reflexivity).
  destruct H as [c Hc]. exists c. split; [exact Hc|].
  exact (proj1 (proj1 (logical_attributes_parsed "Foo" "mfiles" 1 l rest Hok Hlog)
                  c Hc)).
Defined.





(** C6, on the code: after two indented comment lines, a comment line
    that is not indented is still taken into the docstring. The
    constructor measures the indentation of each further line only to skip
    it; the loop stops at the first token that is not a comment, here
    [end]. *)
Theorem docstring_takes_unindented_comment :
  exists c,
    new_MatClass "Foo" "mfiles"
      [classdef; blank; (Token.Name, "Foo"); newline;
       blank; blank; (Token.Comment, "% first"); newline;
       blank; blank; (Token.Comment, "% second"); newline;
       (Token.Comment, "% third"); newline;
       (Token.Keyword, "end"); newline] = OK c /\
    docstring c =
      "% first" +:+ NL +:+ "% second" +:+ NL +:+ "% third" +:+ NL.
Proof. eexists. split; vm_compute; reflexivity. Qed.


(** C8, on the code: for a token list that starts with
    [(Keyword, "function")], [parse_mfile] calls the constructor of
    [MatFunction], whose [super(MatClass, self)] raises [TypeError], as
    [self] is no instance of [MatClass]. No function object is returned,
    whatever the name. *)
Theorem parse_mfile_function_raises nm pth rest :
  parse_mfile ((Token.Keyword, "function") :: rest) nm pth =
    Raise (TypeError "super(type, obj): obj must be an instance or subtype of type").
Proof. reflexivity. Qed.

(** C9. The bases of a class that the constructor returns hold no empty
    string. *)
Theorem bases_never_empty nm pth tks c :
  new_MatClass nm pth tks = OK c -> EmptyString ∉ bases c.
Proof.
  intros Hc. apply new_MatClass_OK in Hc. subst c.
  apply (parse_tokens_bases_nonempty (start nm pth tks)).
  cbn. apply not_elem_of_nil.
Qed.

(** C10. The constructor leaves the token list as it was, whether it
    returns or raises, and the class it returns holds that list. *)
Theorem tokens_unchanged nm pth tks :
  tokens_after nm pth tks = tks /\
  forall c, new_MatClass nm pth tks = OK c -> tokens c = tks.
Proof.
  split.
  - unfold tokens_after. rewrite init_start.
    apply (parse_tokens_same_tokens (start nm pth tks)).
  - intros c Hc. apply new_MatClass_OK in Hc. subst c.
    apply (parse_tokens_same_tokens (start nm pth tks)).
Qed.

(** The sample token list makes a class. *)
Lemma sample_parses :
  exists c, new_MatClass "Foo" "mfiles" sample_tokens = OK c.
Proof. eexists. vm_compute. reflexivity. Defined.


(** C9, a witness: the class of the sample token list. *)
Lemma bases_never_empty_witness :
  exists c,
    new_MatClass "Foo" "mfiles" sample_tokens = OK c /\ EmptyString ∉ bases c.
Proof.
  destruct sample_parses as [c Hc]. exists c. split; [exact Hc|].
  exact (bases_never_empty "Foo" "mfiles" sample_tokens c Hc).
Defined.

(** C10, a witness: the sample token list. *)
Lemma tokens_unchanged_witness :
  tokens_after "Foo" "mfiles" sample_tokens = sample_tokens /\
  exists c,
    new_MatClass "Foo" "mfiles" sample_tokens = OK c /\ tokens c = sample_tokens.
Proof.
  split; [exact (proj1 (tokens_unchanged "Foo" "mfiles" sample_tokens))|].
  destruct sample_parses as [c Hc]. exists c. split; [exact Hc|].
  exact (proj2 (tokens_unchanged "Foo" "mfiles" sample_tokens) c Hc).
Defined.

(** * Further properties of the code *)

(** ** The token cursor *)

Lemma scan_OK_iff p (l : list token) n :
  scan p l = OK n <->
  (forall i, i < n -> exists t, l !! i = Some t /\ p t = true) /\
  (exists t, l !! n = Some t /\ p t = false).
Proof.
  revert n. induction l as [|x l IH]; intros n; cbn [scan].
  - split; [discriminate|]. intros [_ (t & Ht & _)]. discriminate.
  - destruct (p x) eqn:Hx.
    + destruct n as [|n].
      * split.
        -- destruct (scan p l); discriminate.
        -- intros [_ (t & Ht & Hp)]. cbn in Ht. congruence.
      * specialize (IH n). split.
        -- intros H. destruct (scan p l) as [m| |]; try discriminate.
           injection H as ->. destruct IH as [IH _].
           destruct (IH eq_refl) as [Hrun Hend]. split; [|exact Hend].
           intros [|i] Hi; [exists x; auto|]. apply Hrun. lia.
        -- intros [Hrun Hend]. destruct IH as [_ IH]. rewrite IH; [reflexivity|].
           split; [|exact Hend]. intros i Hi. apply (Hrun (S i)). lia.
    + split.
      * intros [= <-]. split; [intros i Hi; lia|]. exists x. auto.
      * intros [Hrun (t & Ht & Hp)]. destruct n as [|n]; [reflexivity|].
        destruct (Hrun 0 ltac:(lia)) as (t0 & Ht0 & Hp0). cbn in Ht0. congruence.
Qed.

Lemma scan_Raise_iff p (l : list token) e :
  scan p l = Raise e <-> e = IndexError /\ Forall (fun x => p x = true) l.
Proof.
  induction l as [|x l IH]; cbn [scan].
  - split; [intros [= <-]; auto|]. intros [-> _]. reflexivity.
  - destruct (p x) eqn:Hx.
    + split.
      * intros H. destruct (scan p l) as [m|e'|]; try discriminate.
        injection H as ->. destruct IH as [IH _].
        destruct (IH eq_refl) as [-> Hl]. auto.
      * intros [-> Hl]. apply Forall_cons in Hl as [_ Hl].
        destruct IH as [_ IH]. rewrite IH by auto. reflexivity.
    + split; [discriminate|]. intros [_ Hl]. apply Forall_cons in Hl as [Hp _].
      congruence.
Qed.

Lemma is_blank_iff t : is_blank t = true <-> t = blank.
Proof.
  unfold is_blank, blank. destruct t as [k v]; cbn [fst snd].
  rewrite andb_true_iff, !bool_decide_eq_true. split.
  - intros [-> ->]. reflexivity.
  - intros [= -> ->]. auto.
Qed.

Lemma is_blank_false_iff t : is_blank t = false <-> t <> blank.
Proof.
  rewrite <- is_blank_iff. destruct (is_blank t); split; congruence.
Qed.

Lemma scan_drop_OK p (tks : list token) idx n :
  scan p (drop idx tks) = OK n <-> run_of p tks idx n.
Proof.
  rewrite scan_OK_iff. unfold run_of.
  setoid_rewrite lookup_drop. reflexivity.
Qed.

Lemma scan_drop_Raise p (tks : list token) idx :
  scan p (drop idx tks) = Raise IndexError <-> all_from p tks idx.
Proof.
  rewrite scan_Raise_iff, Forall_lookup. unfold all_from.
  setoid_rewrite lookup_drop. split.
  - intros [_ H] i t Hi Ht. apply (H (i - idx) t).
    replace (idx + (i - idx)) with i by lia. exact Ht.
  - intros H. split; [reflexivity|]. intros i t Ht. apply (H (idx + i) t); [lia|exact Ht].
Qed.

(** X1. Each scanner returns [n] exactly when [n] tokens of its kind stand
    at [idx] and a token of another kind follows them; for [_blanks] the
    tokens of its kind are the blank token itself. *)
Theorem scanners_count_the_run self idx n :
  (_blanks self idx = OK n <->
     (forall i, i < n -> tokens self !! (idx + i) = Some blank) /\
     (exists t, tokens self !! (idx + n) = Some t /\ t <> blank)) /\
  (_indent self idx = OK n <-> run_of is_indent (tokens self) idx n) /\
  (_whitespace self idx = OK n <-> run_of is_whitespace (tokens self) idx n).
Proof.
  unfold _blanks, _indent, _whitespace. rewrite !scan_drop_OK.
  split; [|split; reflexivity].
  unfold run_of. split.
  - intros [Hrun (t & Ht & Hp)]. split.
    + intros i Hi. destruct (Hrun i Hi) as (t' & Ht' & Hp').
      apply is_blank_iff in Hp'. congruence.
    + exists t. split; [exact Ht|]. apply is_blank_false_iff, Hp.
  - intros [Hrun (t & Ht & Hp)]. split.
    + intros i Hi. exists blank. split; [apply Hrun, Hi|reflexivity].
    + exists t. split; [exact Ht|]. apply is_blank_false_iff, Hp.
Qed.

(** X2. A scanner raises [IndexError] exactly when every token from [idx]
    on is of its kind: it looks for the token that ends the run and does
    not stop at the end of the list. At or past the end all three raise;
    none returns 0 there. *)
Theorem scanners_past_the_end self idx :
  (_blanks self idx = Raise IndexError <-> all_from is_blank (tokens self) idx) /\
  (_indent self idx = Raise IndexError <-> all_from is_indent (tokens self) idx) /\
  (_whitespace self idx = Raise IndexError <->
     all_from is_whitespace (tokens self) idx) /\
  (length (tokens self) <= idx ->
     _blanks self idx = Raise IndexError /\
     _indent self idx = Raise IndexError /\
     _whitespace self idx = Raise IndexError).
Proof.
  unfold _blanks, _indent, _whitespace. rewrite !scan_drop_Raise.
  repeat (split; [reflexivity|]).
  intros Hlen.
  assert (forall p, all_from p (tokens self) idx) as H.
  { intros p i t Hi Ht. apply lookup_lt_Some in Ht. lia. }
  repeat split; apply H.
Qed.

(** X2, a witness: the index at the end of a list of two tokens. *)
Lemma scanners_past_the_end_witness :
  let self := start "Foo" "mfiles" [classdef; blank] in
  length (tokens self) <= 2 /\
  _blanks self 2 = Raise IndexError /\
  _indent self 2 = Raise IndexError /\
  _whitespace self 2 = Raise IndexError.
Proof.
  intros self.
  assert (H : length (tokens self) <= 2) by (cbn; lia).
  split; [exact H|].
  exact (proj2 (proj2 (proj2 (scanners_past_the_end self 2))) H).
Defined.

Lemma scan_weaker p q (l : list token) n :
  (forall t, p t = true -> q t = true) ->
  scan q l = OK n -> exists m, scan p l = OK m /\ m <= n.
Proof.
  intros Hpq. revert n. induction l as [|x l IH]; intros n; cbn [scan];
    [discriminate|].
  destruct (p x) eqn:Hp.
  - rewrite (Hpq x Hp). destruct (scan q l) as [k| |]; try discriminate.
    intros [= <-]. destruct (IH k eq_refl) as (m & -> & Hm).
    exists (S m). split; [reflexivity|lia].
  - intros _. exists 0. split; [reflexivity|].
    lia.
Qed.

Lemma is_blank_indent t : is_blank t = true -> is_indent t = true.
Proof.
  intros ->%is_blank_iff. reflexivity.
Qed.

(** X3. Blanks are indentation and indentation is whitespace: where
    [_whitespace] returns, [_indent] and [_blanks] return too, and their
    counts are in that order. *)
Theorem scanners_ordered self idx w :
  _whitespace self idx = OK w ->
  exists i b,
    _indent self idx = OK i /\ _blanks self idx = OK b /\ b <= i /\ i <= w.
Proof.
  unfold _whitespace, _indent, _blanks. intros Hw.
  destruct (scan_weaker is_indent is_whitespace _ _ is_indent_whitespace Hw)
    as (i & Hi & Hiw).
  destruct (scan_weaker is_blank is_indent _ _ is_blank_indent Hi)
    as (b & Hb & Hbi).
  exists i, b. auto.
Qed.

(** X3, a witness: two blanks, a tab and a newline before [end]. *)
Lemma scanners_ordered_witness :
  let self :=
    start "Foo" "mfiles"
      [blank; blank; (Token.Text, TAB); newline; (Token.Keyword, "end")] in
  _whitespace self 0 = OK 4 /\
  exists i b,
    _indent self 0 = OK i /\ _blanks self 0 = OK b /\ b <= i /\ i <= 4.
Proof.
  intros self.
  assert (H : _whitespace self 0 = OK 4) by (vm_compute; reflexivity).
  split; [exact H|].
  exact (scanners_ordered self 0 4 H).
Defined.

(** X4. [_tk_ne] is the negation of [_tk_eq], with the same [IndexError];
    both raise it exactly at the indices where [_eotk] holds, and return
    a truth value at the others. *)
Theorem probes_and_end_of_tokens self idx tk :
  _tk_ne self idx tk =
    match _tk_eq self idx tk with
    | OK b => OK (negb b)
    | Raise e => Raise e
    | OutOfFuel => OutOfFuel
    end /\
  (_eotk self idx = true <-> _tk_eq self idx tk = Raise IndexError) /\
  (_eotk self idx = false <->
     exists t, tokens self !! idx = Some t /\
               _tk_eq self idx tk = OK (bool_decide (t = tk))).
Proof.
  unfold _eotk. destruct (drop idx (tokens self)) as [|t r] eqn:Hd.
  - assert (Hlen : length (tokens self) <= idx).
    { apply (f_equal length) in Hd. rewrite length_drop in Hd. cbn in Hd. lia. }
    unfold _tk_ne, _tk_eq. rewrite (tokens_at_end _ _ Hd).
    split; [reflexivity|]. split.
    + rewrite bool_decide_eq_true. tauto.
    + rewrite bool_decide_eq_false. split; [lia|].
      intros (t & Ht & _). apply lookup_lt_Some in Ht. lia.
  - pose proof (drop_lookup _ _ _ _ Hd) as Ht.
    pose proof (lookup_lt_Some _ _ _ Ht) as Hlt.
    rewrite (tk_ne_drop _ _ _ _ _ Hd), (tk_eq_drop _ _ _ _ _ Hd).
    split; [reflexivity|]. split.
    + rewrite bool_decide_eq_true. split; [lia|discriminate].
    + rewrite bool_decide_eq_false. split; [|lia]. eauto.
Qed.

(** ** A logic of triples for the constructor *)

Section Hoare.
Context {A B : Type}.

Lemma hoare_ret (P : MatClass -> Prop) (a : A) Q E :
  (forall self, P self -> Q a self) -> hoare P (mret a) Q E.
Proof. intros H self HP. apply H, HP. Qed.

Lemma hoare_raise (P : MatClass -> Prop) e (Q : A -> MatClass -> Prop) (E : PyExc -> Prop) :
  (forall self, P self -> E e) -> hoare P (raise e) Q E.
Proof. intros H self HP. apply (H self HP). Qed.

Lemma hoare_bind P (m : M MatClass A) (k : A -> M MatClass B) Q1 Q2 E :
  hoare P m Q1 E -> (forall a, hoare (Q1 a) (k a) Q2 E) ->
  hoare P (m ≫= k) Q2 E.
Proof.
  intros Hm Hk self HP. rewrite run_bind. specialize (Hm self HP).
  destruct (m self) as [self' [a|e|]]; [apply (Hk a self' Hm)|exact Hm|exact I].
Qed.

Lemma hoare_conseq (P P' : MatClass -> Prop) (m : M MatClass A)
    (Q Q' : A -> MatClass -> Prop) E :
  hoare P' m Q' E -> (forall self, P self -> P' self) ->
  (forall a self, Q' a self -> Q a self) -> hoare P m Q E.
Proof.
  intros Hm HP HQ self Hs. specialize (Hm self (HP self Hs)).
  destruct (m self) as [self' [a|e|]]; auto.
Qed.

Lemma hoare_pure (P : MatClass -> Prop) (H : Prop) (m : M MatClass A) Q E :
  (H -> hoare P m Q E) -> hoare (fun self => P self /\ H) m Q E.
Proof. intros Hm self [HP HH]. apply (Hm HH self HP). Qed.
End Hoare.

Lemma hoare_assign (P : MatClass -> Prop) (f : MatClass -> MatClass) Q E :
  (forall self, P self -> Q tt (f self)) -> hoare P (assign f) Q E.
Proof. intros H self HP. apply H, HP. Qed.

(** A loop with the invariant [Inv]: the condition, when it holds, gives
    [T], from which the body gives the invariant back; when it does not
    hold it gives [Q]. *)
Lemma hoare_while_ {L} (Inv T Q : L -> MatClass -> Prop) E
    (cond : L -> M MatClass bool) (body : L -> M MatClass L) :
  (forall l, hoare (Inv l) (cond l)
               (fun b self => if b then T l self else Q l self) E) ->
  (forall l, hoare (T l) (body l) Inv E) ->
  forall fuel l, hoare (Inv l) (while_ fuel cond body l) Q E.
Proof.
  intros Hcond Hbody. induction fuel as [|fuel IH]; intros l; [intros self _; exact I|].
  rewrite while_S. eapply hoare_bind; [apply Hcond|].
  intros [|]; [|apply hoare_ret; auto].
  eapply hoare_bind; [apply Hbody|]. intros l'. apply IH.
Qed.

Lemma hoare_while {L} (Inv T Q : L -> MatClass -> Prop) E
    (cond : L -> M MatClass bool) (body : L -> M MatClass L) l :
  (forall l, hoare (Inv l) (cond l)
               (fun b self => if b then T l self else Q l self) E) ->
  (forall l, hoare (T l) (body l) Inv E) ->
  hoare (Inv l) (while cond body l) Q E.
Proof.
  intros Hcond Hbody self HI. unfold while.
  apply (hoare_while_ Inv T Q E cond body Hcond Hbody (loop_fuel self) l self HI).
Qed.

(** The cursor raises nothing but [IndexError]. *)
Lemma tokens_at_Raise self idx e : tokens_at self idx = Raise e -> e = IndexError.
Proof. unfold tokens_at. destruct (tokens self !! idx); congruence. Qed.

Lemma tk_eq_Raise self idx tk e : _tk_eq self idx tk = Raise e -> e = IndexError.
Proof.
  unfold _tk_eq. destruct (tokens_at self idx) eqn:H; try discriminate.
  intros [= <-]. apply (tokens_at_Raise _ _ _ H).
Qed.

Lemma tk_ne_Raise self idx tk e : _tk_ne self idx tk = Raise e -> e = IndexError.
Proof.
  unfold _tk_ne. destruct (tokens_at self idx) eqn:H; try discriminate.
  intros [= <-]. apply (tokens_at_Raise _ _ _ H).
Qed.

Lemma scan_Raise p (l : list token) e : scan p l = Raise e -> e = IndexError.
Proof. intros H. apply scan_Raise_iff in H. tauto. Qed.

Lemma tokens_at_OK self idx t : tokens_at self idx = OK t -> tokens self !! idx = Some t.
Proof. unfold tokens_at. destruct (tokens self !! idx); congruence. Qed.

Lemma tk_eq_OK self idx tk b :
  _tk_eq self idx tk = OK b ->
  exists t, tokens self !! idx = Some t /\ b = bool_decide (t = tk).
Proof.
  intros H. destruct (drop idx (tokens self)) as [|t r] eqn:Hd.
  - unfold _tk_eq in H. rewrite (tokens_at_end _ _ Hd) in H. discriminate.
  - rewrite (tk_eq_drop _ _ _ _ _ Hd) in H. injection H as <-.
    exists t. split; [apply (drop_lookup _ _ _ _ Hd)|reflexivity].
Qed.

Lemma tk_ne_OK self idx tk b :
  _tk_ne self idx tk = OK b ->
  exists t, tokens self !! idx = Some t /\ b = negb (bool_decide (t = tk)).
Proof.
  intros H. destruct (drop idx (tokens self)) as [|t r] eqn:Hd.
  - unfold _tk_ne in H. rewrite (tokens_at_end _ _ Hd) in H. discriminate.
  - rewrite (tk_ne_drop _ _ _ _ _ Hd) in H. injection H as <-.
    exists t. split; [apply (drop_lookup _ _ _ _ Hd)|reflexivity].
Qed.

(** ** The constructor in triples *)

Section HoarePhases.
Variables (tks : list token) (nm : string).

Lemma hoare_read_st {A} (J : MatClass -> Prop) (f : MatClass -> outcome A)
    (Qp : A -> Prop) :
  (forall self, tokens self = tks -> name self = nm ->
     match f self with
     | OK a => Qp a
     | Raise e => e = IndexError
     | OutOfFuel => True
     end) ->
  hoare (parsing tks nm J) (reads f)
    (fun a self => parsing tks nm J self /\ Qp a) (init_error nm tks).
Proof.
  intros Hf self HP. pose proof HP as (Htk & Hnm & _).
  specialize (Hf self Htk Hnm). unfold reads.
  destruct (f self) as [a|e|]; [auto|subst e; constructor|exact I].
Qed.

Lemma hoare_tokens_at J idx :
  hoare (parsing tks nm J) (reads (fun self => tokens_at self idx))
    (fun t self => parsing tks nm J self /\ tks !! idx = Some t)
    (init_error nm tks).
Proof.
  apply hoare_read_st. intros self Htk _.
  destruct (tokens_at self idx) as [t|e|] eqn:H; [| |exact I].
  - rewrite <- Htk. apply (tokens_at_OK _ _ _ H).
  - apply (tokens_at_Raise _ _ _ H).
Qed.

Lemma hoare_tk_eq J idx tk :
  hoare (parsing tks nm J) (reads (fun self => _tk_eq self idx tk))
    (fun b self => parsing tks nm J self /\
       exists t, tks !! idx = Some t /\ b = bool_decide (t = tk))
    (init_error nm tks).
Proof.
  apply hoare_read_st. intros self Htk _.
  destruct (_tk_eq self idx tk) as [b|e|] eqn:H; [| |exact I].
  - rewrite <- Htk. apply (tk_eq_OK _ _ _ _ H).
  - apply (tk_eq_Raise _ _ _ _ H).
Qed.

Lemma hoare_tk_ne J idx tk :
  hoare (parsing tks nm J) (reads (fun self => _tk_ne self idx tk))
    (fun b self => parsing tks nm J self /\
       exists t, tks !! idx = Some t /\ b = negb (bool_decide (t = tk)))
    (init_error nm tks).
Proof.
  apply hoare_read_st. intros self Htk _.
  destruct (_tk_ne self idx tk) as [b|e|] eqn:H; [| |exact I].
  - rewrite <- Htk. apply (tk_ne_OK _ _ _ _ H).
  - apply (tk_ne_Raise _ _ _ _ H).
Qed.

(** The comparison with the name of the object. *)
Lemma hoare_tk_ne_name J idx :
  hoare (parsing tks nm J)
    (reads (fun self => _tk_ne self idx (Token.Name, name self)))
    (fun b self => parsing tks nm J self /\
       exists t, tks !! idx = Some t /\ b = negb (bool_decide (t = (Token.Name, nm))))
    (init_error nm tks).
Proof.
  apply hoare_read_st. intros self Htk Hnm. rewrite Hnm.
  destruct (_tk_ne self idx (Token.Name, nm)) as [b|e|] eqn:H; [| |exact I].
  - rewrite <- Htk. apply (tk_ne_OK _ _ _ _ H).
  - apply (tk_ne_Raise _ _ _ _ H).
Qed.

Lemma hoare_scan J p idx :
  hoare (parsing tks nm J) (reads (fun self => scan p (drop idx (tokens self))))
    (fun n self => parsing tks nm J self /\ run_of p tks idx n)
    (init_error nm tks).
Proof.
  apply hoare_read_st. intros self Htk _. rewrite Htk.
  destruct (scan p (drop idx tks)) as [n|e|] eqn:H; [| |exact I].
  - apply scan_drop_OK, H.
  - apply (scan_Raise _ _ _ H).
Qed.

Lemma hoare_assign_st (J J' : MatClass -> Prop) (f : MatClass -> MatClass) :
  (forall self, tokens (f self) = tokens self) ->
  (forall self, name (f self) = name self) ->
  (forall self, J self -> J' (f self)) ->
  hoare (parsing tks nm J) (assign f) (fun _ => parsing tks nm J')
    (init_error nm tks).
Proof.
  intros Htk Hnm HJ. apply hoare_assign. intros self (H1 & H2 & H3).
  repeat split; [rewrite Htk|rewrite Hnm|apply HJ]; assumption.
Qed.

(** A loop that keeps [parsing tks nm J]; what it knows of its local
    variables does not depend on the object. *)
Lemma hoare_while_st {L} (J : MatClass -> Prop) (PI PT PQ : L -> Prop)
    (cond : L -> M MatClass bool) (body : L -> M MatClass L) l :
  (forall l, PI l ->
     hoare (parsing tks nm J) (cond l)
       (fun b self => parsing tks nm J self /\ if b : bool then PT l else PQ l)
       (init_error nm tks)) ->
  (forall l, PT l ->
     hoare (parsing tks nm J) (body l)
       (fun l' self => parsing tks nm J self /\ PI l') (init_error nm tks)) ->
  PI l ->
  hoare (parsing tks nm J) (while cond body l)
    (fun l' self => parsing tks nm J self /\ PQ l') (init_error nm tks).
Proof.
  intros Hcond Hbody Hl.
  eapply hoare_conseq;
    [apply (hoare_while
              (fun l self => parsing tks nm J self /\ PI l)
              (fun l self => parsing tks nm J self /\ PT l)
              (fun l self => parsing tks nm J self /\ PQ l))| |].
  - intros l0. apply hoare_pure. intros Hl0.
    eapply hoare_conseq; [apply (Hcond l0 Hl0)|auto|].
    intros [|] self H; exact H.
  - intros l0. apply hoare_pure. intros Hl0. apply (Hbody l0 Hl0).
  - intros self H. split; assumption.
  - intros l' self H. exact H.
Qed.

End HoarePhases.

(** Goals [hoare (parsing tks nm J) m Q E], by the structure of [m]. *)
Ltac hoare_read_rule :=
  lazymatch goal with
  | |- hoare _ (reads (fun self => tokens_at self _)) _ _ =>
      apply hoare_tokens_at
  | |- hoare _ (reads (fun self => _tk_eq self _ _)) _ _ =>
      apply hoare_tk_eq
  | |- hoare _ (reads (fun self => _tk_ne self _ (Token.Name, name self))) _ _ =>
      apply hoare_tk_ne_name
  | |- hoare _ (reads (fun self => _tk_ne self _ _)) _ _ =>
      apply hoare_tk_ne
  | |- hoare _ (reads (fun self => _blanks self _)) _ _ =>
      apply (hoare_scan _ _ _ is_blank)
  | |- hoare _ (reads (fun self => _whitespace self _)) _ _ =>
      apply (hoare_scan _ _ _ is_whitespace)
  | |- hoare _ (reads (fun self => _indent self _)) _ _ =>
      apply (hoare_scan _ _ _ is_indent)
  end.

Ltac hoare_facts :=
  cbn beta in *;
  repeat match goal with
         | H : exists _, _ |- _ => destruct H
         | H : _ /\ _ |- _ => destruct H
         end.

Ltac hoare_step :=
  lazymatch goal with
  | |- hoare _ (mbind _ (reads _)) _ _ =>
      eapply hoare_bind;
      [hoare_read_rule|intros ?; apply hoare_pure; intros ?; hoare_facts]
  | |- hoare _ (reads _) _ _ =>
      eapply hoare_conseq;
      [hoare_read_rule|intros ? ?; eassumption|intros ? ? [? ?]; hoare_facts]
  | |- hoare ?P (mbind _ (mret _)) _ _ =>
      eapply (hoare_bind P _ _ (fun _ => P));
      [apply hoare_ret; intros ? ?; assumption|intros ?]
  | |- hoare _ (mbind _ (if ?b then _ else _)) _ _ => destruct b eqn:?
  | |- hoare _ (if ?b then _ else _) _ _ => destruct b eqn:?
  | |- hoare _ (mret _) _ _ => apply hoare_ret; intros ? ?
  | |- hoare _ (raise _) _ _ => apply hoare_raise; intros ? ?
  end.

(** Two reads of one index give one token. *)
Ltac same_token :=
  repeat match goal with
         | H1 : ?l !! ?i = Some ?x, H2 : ?l !! ?i = Some ?y |- _ =>
             let Heq := fresh in
             pose proof (eq_trans (eq_sym H1) H2) as Heq;
             injection Heq as <-; clear H2
         end.

Ltac hoare_done :=
  cbn beta;
  repeat match goal with
         | |- context [if ?b then _ else _] => destruct b
         end;
  auto.

Lemma parsing_mono tks nm (J J' : MatClass -> Prop) self :
  (forall self, J self -> J' self) ->
  parsing tks nm J self -> parsing tks nm J' self.
Proof. intros HJ (H1 & H2 & H3). repeat split; auto. Qed.

Lemma in_cell_attrs_ok k self : in_cell k self -> has_attrs_ok self.
Proof. intros [H _]. exact H. Qed.

Lemma attrs_ok_insert k v m :
  dict_in k cls_attr_types = true -> attr_val_ok v -> attrs_ok m ->
  attrs_ok (<[k := v]> m).
Proof.
  intros Hk Hv Hm k' v' H. destruct (decide (k = k')) as [<-|Hne].
  - rewrite lookup_insert_eq in H. injection H as <-. auto.
  - rewrite lookup_insert_ne in H by exact Hne. apply (Hm k' v' H).
Qed.

Lemma str_truth_true s : str_truth s = true -> s <> EmptyString.
Proof. destruct s; [discriminate|discriminate]. Qed.

Section ParseInTriples.
Variables (tks : list token) (nm : string).

Lemma hoare_attrs_append k v :
  v <> EmptyString ->
  hoare (parsing tks nm (in_cell k)) (attrs_append k v)
    (fun _ => parsing tks nm (in_cell k)) (init_error nm tks).
Proof.
  intros Hv self (Htk & Hnm & Hok & l & Hl). unfold attrs_append. rewrite Hl.
  destruct (Hok k _ Hl) as [Hk Hlok].
  split; [exact Htk|]. split; [exact Hnm|]. split.
  - cbn. apply attrs_ok_insert; [exact Hk| |exact Hok].
    cbn. apply Forall_app. split; [exact Hlok|]. constructor; [exact Hv|constructor].
  - cbn. rewrite lookup_insert_eq. eauto.
Qed.

Lemma hoare_cell_elem_loop J l :
  hoare (parsing tks nm J) (while cell_elem_cond cell_elem_body l)
    (fun _ self => parsing tks nm J self /\ True) (init_error nm tks).
Proof.
  apply (hoare_while_st tks nm J (fun _ => True) (fun _ => True) (fun _ => True));
    [| |exact I].
  - intros l0 _. unfold cell_elem_cond. repeat hoare_step.
    + hoare_done.
    + hoare_done.
  - intros l0 _. unfold cell_elem_body. repeat hoare_step. auto.
Qed.

Lemma hoare_cell_body k idx :
  hoare (parsing tks nm (in_cell k)) (cell_body k idx)
    (fun _ self => parsing tks nm (in_cell k) self /\ True) (init_error nm tks).
Proof.
  unfold cell_body. hoare_step.
  eapply hoare_bind; [apply hoare_cell_elem_loop|].
  intros l. apply hoare_pure. intros _. cbn zeta.
  destruct (str_truth l.2) eqn:Hv.
  - eapply hoare_bind; [apply hoare_attrs_append, str_truth_true, Hv|].
    intros ?. hoare_step. auto.
  - repeat hoare_step. auto.
Qed.

Lemma hoare_attr_value k idx :
  dict_in k cls_attr_types = true ->
  hoare (parsing tks nm (in_cell k)) (attr_value k idx)
    (fun _ self => parsing tks nm has_attrs_ok self /\ True) (init_error nm tks).
Proof.
  intros Hk. unfold attr_value. hoare_step. cbn zeta. hoare_step.
  - apply andb_prop in Heqb as [_ Hv]. apply bool_decide_eq_true in Hv.
    eapply hoare_bind.
    + unfold attrs_setitem.
      apply (hoare_assign_st tks nm (in_cell k) has_attrs_ok);
        [reflexivity|reflexivity|].
      intros self [Hok _]. unfold has_attrs_ok. cbn.
      apply attrs_ok_insert; [exact Hk| |exact Hok].
      cbn. rewrite !elem_of_cons in Hv. rewrite elem_of_nil in Hv. tauto.
    + intros ?. hoare_step. auto.
  - hoare_step. hoare_step.
    + eapply hoare_bind.
      * apply (hoare_while_st tks nm (in_cell k)
                 (fun _ => True) (fun _ => True) (fun _ => True)); [| |exact I].
        -- intros i _. unfold cell_cond. hoare_step.
           hoare_done.
        -- intros i _. apply hoare_cell_body.
      * intros i. apply hoare_pure. intros _. hoare_step.
        split; [|exact I]. eapply parsing_mono; [apply in_cell_attrs_ok|eassumption].
    + hoare_step.
      split; [|exact I]. eapply parsing_mono; [apply in_cell_attrs_ok|eassumption].
Qed.

Lemma hoare_attr_body idx :
  hoare (parsing tks nm has_attrs_ok) (attr_body idx)
    (fun _ self => parsing tks nm has_attrs_ok self /\ True) (init_error nm tks).
Proof.
  unfold attr_body. hoare_step. hoare_step. cbn zeta.
  destruct (bool_decide (a0.1 = Token.Name) && dict_in a0.2 cls_attr_types)
    eqn:Hc.
  - apply andb_prop in Hc as [_ Hk].
    eapply hoare_bind.
    { unfold attrs_setitem.
      apply (hoare_assign_st tks nm has_attrs_ok (in_cell a0.2));
        [reflexivity|reflexivity|].
      intros self Hok. split; cbn.
      - apply attrs_ok_insert; [exact Hk|constructor|exact Hok].
      - rewrite lookup_insert_eq. eauto. }
    intros ?. cbn beta.
    assert (Hmono : forall self, parsing tks nm (in_cell a0.2) self ->
                      parsing tks nm has_attrs_ok self /\ True).
    { intros self Hp. split; [|exact I].
      eapply parsing_mono; [apply in_cell_attrs_ok|exact Hp]. }
    do 3 hoare_step; [hoare_step; auto|].
    do 2 hoare_step; [|hoare_step; auto].
    hoare_step.
    eapply hoare_bind; [apply (hoare_attr_value _ _ Hk)|].
    intros i. apply hoare_pure. intros _.
    repeat hoare_step; auto.
  - hoare_step. apply (err_attribute nm tks (idx + a) a0); [assumption|].
    intros Hn. apply andb_false_iff in Hc as [Hc|Hc]; [|exact Hc].
    apply bool_decide_eq_false in Hc. contradiction.
Qed.

Lemma hoare_parse_attrs idx :
  hoare (parsing tks nm has_attrs_ok) (parse_attrs idx)
    (fun _ self => parsing tks nm has_attrs_ok self /\ True) (init_error nm tks).
Proof.
  unfold parse_attrs. do 2 hoare_step; [|hoare_step; auto].
  eapply hoare_bind.
  - apply (hoare_while_st tks nm has_attrs_ok
             (fun _ => True) (fun _ => True) (fun _ => True)); [| |exact I].
    + intros i _. unfold attr_cond. hoare_step. hoare_done.
    + intros i _. apply hoare_attr_body.
  - intros i. apply hoare_pure. intros _. hoare_step. auto.
Qed.

(** The class name: the index that the phase returns is that of a token,
    and the token before the blanks that end there is the name. *)
Lemma hoare_parse_classname J idx :
  hoare (parsing tks nm J) (parse_classname idx)
    (fun _ self => parsing tks nm J self /\
       exists i, tks !! i = Some (Token.Name, nm) /\ S i < length tks)
    (init_error nm tks).
Proof.
  unfold parse_classname. do 3 hoare_step.
  - hoare_step. hoare_step.
    match goal with
    | Hr : run_of is_blank _ _ _ |- _ => destruct Hr as (_ & t & Ht & Hb)
    end.
    same_token.
    apply (err_name nm tks (idx + a) t); [assumption| |].
    + match goal with
      | Hn : true = negb _ |- _ =>
          symmetry in Hn; apply negb_true_iff, bool_decide_eq_false in Hn;
          exact Hn
      end.
    + apply is_blank_false_iff, Hb.
  - hoare_step. hoare_step. split; [assumption|].
    exists (idx + a). split.
    + match goal with
      | Hn : false = negb _, Hx : tks !! (idx + a) = Some ?x |- _ =>
          symmetry in Hn; apply negb_false_iff, bool_decide_eq_true in Hn;
          rewrite <- Hn; exact Hx
      end.
    + match goal with
      | Hr : run_of is_blank _ (idx + a + 1) _ |- _ =>
          destruct Hr as (_ & t & Ht & _); apply lookup_lt_Some in Ht; lia
      end.
Qed.

Lemma hoare_base_name_loop J l :
  hoare (parsing tks nm J) (while base_name_cond base_name_body l)
    (fun _ self => parsing tks nm J self /\ True) (init_error nm tks).
Proof.
  apply (hoare_while_st tks nm J (fun _ => True) (fun _ => True) (fun _ => True));
    [| |exact I].
  - intros l0 _. unfold base_name_cond. repeat hoare_step. hoare_done.
  - intros l0 _. unfold base_name_body. repeat hoare_step. auto.
Qed.

Lemma hoare_bases_body idx :
  hoare (parsing tks nm has_attrs_ok) (bases_body idx)
    (fun _ self => parsing tks nm has_attrs_ok self /\ True) (init_error nm tks).
Proof.
  unfold bases_body. hoare_step.
  eapply hoare_bind; [apply hoare_base_name_loop|].
  intros l. apply hoare_pure. intros _. cbn zeta. hoare_step.
  eapply (hoare_bind _ _ _ (fun _ => parsing tks nm has_attrs_ok)).
  { destruct (str_truth l.2).
    - unfold bases_append.
      apply (hoare_assign_st tks nm has_attrs_ok has_attrs_ok);
        [reflexivity|reflexivity|auto].
    - hoare_step. assumption. }
  intros ?. repeat hoare_step. auto.
Qed.

Lemma hoare_parse_bases idx :
  hoare (parsing tks nm has_attrs_ok) (parse_bases idx)
    (fun _ self => parsing tks nm has_attrs_ok self /\ True) (init_error nm tks).
Proof.
  unfold parse_bases. do 2 hoare_step; [|repeat hoare_step; auto].
  eapply hoare_bind.
  - apply (hoare_while_st tks nm has_attrs_ok
             (fun _ => True) (fun _ => True) (fun _ => True)); [| |exact I].
    + intros i _. unfold bases_cond. hoare_step. hoare_done.
    + intros i _. apply hoare_bases_body.
  - intros i. apply hoare_pure. intros _. hoare_step. auto.
Qed.

Lemma hoare_docstring_iadd v :
  hoare (parsing tks nm has_attrs_ok) (docstring_iadd v)
    (fun _ => parsing tks nm has_attrs_ok) (init_error nm tks).
Proof.
  unfold docstring_iadd.
  apply (hoare_assign_st tks nm has_attrs_ok has_attrs_ok);
    [reflexivity|reflexivity|auto].
Qed.

Lemma hoare_docstring_body idx :
  hoare (parsing tks nm has_attrs_ok) (docstring_body idx)
    (fun _ self => parsing tks nm has_attrs_ok self /\ True) (init_error nm tks).
Proof.
  unfold docstring_body. hoare_step.
  eapply hoare_bind; [apply hoare_docstring_iadd|]. intros ?. cbn beta zeta.
  hoare_step.
  eapply (hoare_bind _ _ _ (fun _ => parsing tks nm has_attrs_ok)).
  { hoare_step.
    - hoare_step.
      eapply hoare_bind; [apply hoare_docstring_iadd|]. intros ?.
      hoare_step. assumption.
    - hoare_step. assumption. }
  intros ?. repeat hoare_step. auto.
Qed.

Lemma hoare_parse_docstring idx :
  hoare (parsing tks nm has_attrs_ok) (parse_docstring idx)
    (fun _ self => parsing tks nm has_attrs_ok self /\ True) (init_error nm tks).
Proof.
  unfold parse_docstring. do 2 hoare_step; [|hoare_step; auto].
  cbn zeta.
  apply (hoare_while_st tks nm has_attrs_ok
           (fun _ => True) (fun _ => True) (fun _ => True)); [| |exact I].
  - intros i _. unfold docstring_cond. repeat hoare_step. hoare_done.
  - intros i _. apply hoare_docstring_body.
Qed.

(** The parse as a whole: what it returns on, and what it raises. *)
Lemma hoare_parse_tokens :
  hoare (parsing tks nm has_attrs_ok) parse_tokens
    (fun _ self => parsing tks nm has_attrs_ok self /\
       tks !! 0 = Some classdef /\
       exists i, tks !! i = Some (Token.Name, nm) /\ S i < length tks)
    (init_error nm tks).
Proof.
  unfold parse_tokens. cbn zeta. do 2 hoare_step.
  - hoare_step.
    match goal with
    | Hx : tks !! 0 = Some ?x, Hn : true = negb _ |- _ =>
        symmetry in Hn; apply negb_true_iff, bool_decide_eq_false in Hn;
        apply (err_not_a_class nm tks x Hx Hn)
    end.
  - assert (Hc : tks !! 0 = Some classdef).
    { match goal with
      | Hx : tks !! 0 = Some ?x, Hn : false = negb _ |- _ =>
          symmetry in Hn; apply negb_false_iff, bool_decide_eq_true in Hn;
          subst x; exact Hx
      end. }
    hoare_step.
    eapply hoare_bind; [apply hoare_parse_attrs|].
    intros i1. apply hoare_pure. intros _.
    eapply hoare_bind; [apply hoare_parse_classname|].
    intros i2. apply hoare_pure. intros Hname.
    eapply hoare_bind; [apply hoare_parse_bases|].
    intros i3. apply hoare_pure. intros _.
    eapply hoare_conseq; [apply hoare_parse_docstring|auto|].
    intros i4 self [Hp _]. auto.
Qed.

End ParseInTriples.

(** ** The constructor on every token list *)

#[local] Instance same_rest_preorder : PreOrder same_rest.
Proof.
  split; unfold same_rest; [intros ?|intros ? ? ? (?&?&?) (?&?&?)];
    repeat split; congruence.
Qed.

Lemma parse_tokens_same_rest : respects same_rest parse_tokens.
Proof.
  apply respects_parse_tokens; try exact _; intros; intros self;
    unfold same_rest; cbn; auto.
  unfold attrs_append. destruct (attrs self !! k) as [[l|x]|]; cbn; auto.
Qed.

(** What the triple of the parse says of the constructor. *)
Lemma new_MatClass_hoare nm pth tks :
  match new_MatClass nm pth tks with
  | OK c =>
      parsing tks nm has_attrs_ok c /\ tks !! 0 = Some classdef /\
      exists i, tks !! i = Some (Token.Name, nm) /\ S i < length tks
  | Raise e => init_error nm tks e
  | OutOfFuel => True
  end.
Proof.
  unfold new_MatClass. rewrite init_start.
  assert (Hstart : parsing tks nm has_attrs_ok (start nm pth tks)).
  { split; [reflexivity|]. split; [reflexivity|].
    intros k v H. cbn in H. rewrite lookup_empty in H. discriminate. }
  pose proof (hoare_parse_tokens tks nm (start nm pth tks) Hstart) as H.
  destruct (parse_tokens (start nm pth tks)) as [self [idx|e|]]; exact H.
Qed.

(** X5. [MatClass.__init__] ends on every token list, and it ends in one of
    five ways: it returns, or it raises the [TypeError] for a first token
    that is not [classdef], an [IndexError] of the token list, the
    exception for a token in the attribute list that is not the name of a
    class attribute, or the exception for a token other than the name of
    the class where the name must be. It never raises a [KeyError] or an
    [AttributeError] from the dictionary of attributes. *)
Theorem constructor_returns_or_raises nm pth tks :
  (exists c, new_MatClass nm pth tks = OK c) \/
  (exists e, new_MatClass nm pth tks = Raise e /\ init_error nm tks e).
Proof.
  pose proof (new_MatClass_hoare nm pth tks) as H.
  destruct (new_MatClass_total nm pth tks) as [(c & Hc)|(e & He)].
  - left. eauto.
  - right. exists e. split; [exact He|]. rewrite He in H. exact H.
Qed.

(** X6. The constructor returns a class only for tokens that start with
    [classdef] and hold, later on, a [Name] token with the name of the
    class that is not the last token. *)
Theorem constructed_from_a_header nm pth tks c :
  new_MatClass nm pth tks = OK c ->
  tks !! 0 = Some classdef /\
  exists i, 0 < i /\ tks !! i = Some (Token.Name, nm) /\ S i < length tks.
Proof.
  intros Hc. pose proof (new_MatClass_hoare nm pth tks) as H. rewrite Hc in H.
  destruct H as (_ & H0 & i & Hi & Hlen). split; [exact H0|].
  exists i. split; [|auto].
  destruct i as [|i]; [|lia]. discriminate (eq_trans (eq_sym H0) Hi).
Qed.

Lemma constructed_from_a_header_witness :
  sample_tokens !! 0 = Some classdef /\
  exists i, 0 < i /\ sample_tokens !! i = Some (Token.Name, "Foo") /\
            S i < length sample_tokens.
Proof.
  destruct sample_parses as [c Hc].
  exact (constructed_from_a_header "Foo" "mfiles" sample_tokens c Hc).
Defined.

(** X7. In the attributes of a class that the constructor returns, every
    key is one of the class attributes of [cls_attr_types], and every
    value is the text [true] or [false], or a list of texts none of which
    is empty. *)
Theorem attributes_are_well_formed nm pth tks c k v :
  new_MatClass nm pth tks = OK c ->
  attrs c !! k = Some v ->
  dict_in k cls_attr_types = true /\
  match v with
  | AttrStr s => s = "true" \/ s = "false"
  | AttrList l => Forall (fun x => x <> EmptyString) l
  end.
Proof.
  intros Hc Hk. pose proof (new_MatClass_hoare nm pth tks) as H. rewrite Hc in H.
  destruct H as ((_ & _ & Hok) & _). apply (Hok k v Hk).
Qed.

Lemma attributes_are_well_formed_witness :
  exists c,
    new_MatClass "Foo" "mfiles" sample_tokens = OK c /\
    attrs c !! "Sealed" = Some (AttrStr "true") /\
    dict_in "Sealed" cls_attr_types = true /\
    ("true" = "true" \/ "true" = "false").
Proof.
  destruct sample_parses as [c Hc]. exists c. split; [exact Hc|].
  assert (Hk : attrs c !! "Sealed" = Some (AttrStr "true")).
  { vm_compute in Hc. injection Hc as <-. vm_compute. reflexivity. }
  split; [exact Hk|].
  exact (attributes_are_well_formed "Foo" "mfiles" sample_tokens c
           "Sealed" (AttrStr "true") Hc Hk).
Defined.

(** X8. A class that the constructor returns has the name and the path it
    was given and no properties and no methods, so that its [getter]
    returns the default arguments for every name. *)
Theorem constructed_class_has_no_members nm pth tks c :
  new_MatClass nm pth tks = OK c ->
  name c = nm /\ path c = pth /\ properties c = ∅ /\ methods c = ∅ /\
  forall (V : Type) (x : string) (defargs : list V),
    MatClass_getter c x defargs = OK (inr defargs).
Proof.
  intros Hc. apply new_MatClass_OK in Hc. subst c.
  pose proof (parse_tokens_same_name (start nm pth tks)) as Hn.
  destruct (parse_tokens_same_rest (start nm pth tks)) as (Hp & Hpr & Hm).
  unfold same_name in Hn. cbn [start name path properties methods] in *.
  repeat split; try assumption.
  intros V x defargs. unfold MatClass_getter, dict_in.
  rewrite Hpr, lookup_empty. reflexivity.
Qed.

Lemma constructed_class_has_no_members_witness :
  exists c,
    new_MatClass "Foo" "mfiles" sample_tokens = OK c /\
    name c = "Foo" /\ path c = "mfiles" /\ properties c = ∅ /\ methods c = ∅ /\
    forall (V : Type) (x : string) (defargs : list V),
      MatClass_getter c x defargs = OK (inr defargs).
Proof.
  destruct sample_parses as [c Hc]. exists c. split; [exact Hc|].
  exact (constructed_class_has_no_members "Foo" "mfiles" sample_tokens c Hc).
Defined.

(** ** Superclasses of several tokens *)




Lemma not_whitespace_not_indent t : is_whitespace t = false -> is_indent t = false.
Proof.
  intros H. destruct (is_indent t) eqn:Hb; [|reflexivity].
  apply is_indent_whitespace in Hb. congruence.
Qed.


Lemma loop_fuel_drop self idx (l r : list token) :
  drop idx (tokens self) = l ++ r -> r <> [] -> length l < loop_fuel self.
Proof.
  intros Hd Hr. unfold loop_fuel.
  assert (length (l ++ r) <= length (tokens self))
    by (rewrite <- Hd, length_drop; lia).
  rewrite length_app in *. destruct r; [congruence|]. cbn [length] in *. lia.
Qed.








(** ** Cell arrays *)

Lemma cell_elem_cond_run self l t rest :
  drop l.1 (tokens self) = t :: rest ->
  cell_elem_cond l self =
    (self, OK (negb (bool_decide (t = blank)) && negb (bool_decide (t = comma)))).
Proof.
  intros Hd. unfold cell_elem_cond, blank, comma. run_read.
  destruct (bool_decide (t = (Token.Text, " "))) eqn:Hb; cbn [negb andb].
  - reflexivity.
  - unfold reads. f_equal. cursor.
Qed.

(** The loop that reads an element, up to the blank or the comma. *)
Lemma cell_elem_loop_tokens toks : forall self idx acc e r fuel,
  Forall (fun x => x <> blank /\ x <> comma) toks ->
  e = blank \/ e = comma ->
  drop idx (tokens self) = toks ++ e :: r ->
  length toks < fuel ->
  while_ fuel cell_elem_cond cell_elem_body (idx, acc) self =
    (self, OK (idx + length toks, acc +:+ texts toks)).
Proof.
  induction toks as [|t toks IH]; intros self idx acc e r fuel Htoks He Hd Hfuel;
    (destruct fuel as [|fuel]; [cbn [length] in Hfuel; lia|]);
    rewrite while_S; cbn [app] in Hd;
    erewrite run_bind_OK by (eapply cell_elem_cond_run; exact Hd).
  - assert (Hc : negb (bool_decide (e = blank)) && negb (bool_decide (e = comma))
                 = false).
    { destruct He; subst e; reflexivity. }
    rewrite Hc. cbn [length texts foldr].
    rewrite Nat.add_0_r, string_app_nil_r. reflexivity.
  - apply Forall_cons in Htoks as [[Hb Hc] Htoks].
    rewrite !bool_decide_eq_false_2 by assumption. cbn [negb andb].
    assert (Hbody : cell_elem_body (idx, acc) self = (self, OK (idx + 1, acc +:+ t.2))).
    { unfold cell_elem_body. cbn [fst snd]. run_read. reflexivity. }
    erewrite run_bind_OK by exact Hbody.
    pose proof (drop_next _ _ _ _ Hd) as Hd1.
    rewrite (IH self (idx + 1) (acc +:+ t.2) e r fuel Htoks He Hd1)
      by (cbn [length] in Hfuel; lia).
    cbn [length]. rewrite string_app_assoc.
    replace (idx + S (length toks)) with (idx + 1 + length toks) by lia.
    reflexivity.
Qed.

Lemma attrs_append_run self k v l :
  attrs self !! k = Some (AttrList l) ->
  attrs_append k v self =
    (set_attrs (<[k := AttrList (l ++ [v])]> (attrs self)) self, OK tt).
Proof. intros H. unfold attrs_append. rewrite H. reflexivity. Qed.

(** One round of the loop over a cell array. *)
Lemma cell_body_elem self k idx e l0 rest :
  elem_ok e -> attrs self !! k = Some (AttrList l0) ->
  drop idx (tokens self) = elem_tokens e ++ rest ->
  exists idx',
    cell_body k idx self =
      (set_attrs (<[k := AttrList (l0 ++ elem_values e)]> (attrs self)) self,
       OK idx') /\
    drop idx' (tokens self) = rest.
Proof.
  destruct e as [w toks e]. unfold elem_ok, elem_tokens, elem_values.
  cbn [elem_before elem_toks elem_end].
  intros (Htoks & He & Hnil & _) Hk Hd.
  unfold blanks in Hd. rewrite <- !app_assoc in Hd. cbn [app] in Hd.
  pose proof (drop_blanks _ _ _ _ Hd) as Hd1.
  pose proof (drop_skip _ _ _ _ Hd1) as Hd2.
  pose proof (drop_next _ _ _ _ Hd2) as Hd3.
  assert (Hblanks : _blanks self idx = OK w).
  { destruct toks as [|t0 toks]; cbn [app] in Hd.
    - rewrite (Hnil eq_refl) in Hd.
      eapply blanks_drop; [exact Hd|reflexivity].
    - apply Forall_cons in Htoks as [[Hb _] _].
      eapply blanks_drop; [exact Hd|]. apply is_blank_false_iff, Hb. }
  unfold cell_body. erewrite run_reads_OK by exact Hblanks.
  unfold while.
  rewrite run_bind,
    (cell_elem_loop_tokens toks self (idx + w) EmptyString e rest _ Htoks He Hd1)
    by (eapply loop_fuel_drop; [exact Hd1|discriminate]).
  cbn [fst snd].
  exists (idx + w + length toks + 1). split; [|exact Hd3].
  change (EmptyString +:+ texts toks) with (texts toks).
  destruct (str_truth (texts toks)) eqn:Hv.
  - rewrite run_bind, (attrs_append_run _ _ _ _ Hk). reflexivity.
  - rewrite app_nil_r, (insert_id _ _ _ Hk), set_attrs_id. reflexivity.
Qed.

Lemma cell_cond_run self idx t rest :
  drop idx (tokens self) = t :: rest ->
  cell_cond idx self = (self, OK (negb (bool_decide (t = rbrace)))).
Proof. intros Hd. unfold cell_cond, reads. f_equal. cursor. Qed.

Lemma elem_tokens_head e r :
  elem_ok e -> exists t r', elem_tokens e ++ r = t :: r' /\ t <> rbrace.
Proof.
  destruct e as [[|w] toks e]; unfold elem_ok, elem_tokens;
    cbn [elem_before elem_toks elem_end]; intros (_ & He & Hnil & Hhd).
  - destruct toks as [|t0 toks]; cbn.
    + eexists _, _. split; [reflexivity|].
      rewrite (Hnil eq_refl). discriminate.
    + eexists _, _. split; [reflexivity|].
      intros ->. apply (Hhd eq_refl). reflexivity.
  - cbn. eexists _, _. split; [reflexivity|discriminate].
Qed.

Lemma length_elem_tokens e : 1 <= length (elem_tokens e).
Proof. unfold elem_tokens. rewrite !length_app. cbn. lia. Qed.

Lemma length_cell_tokens l : length l <= length (cell_tokens l).
Proof.
  induction l as [|e l IH]; cbn; [lia|].
  rewrite length_app. pose proof (length_elem_tokens e).
  unfold cell_tokens in IH. lia.
Qed.

(** The loop over the elements of a cell array, up to the closing brace. *)
Lemma cell_loop_elems elems : forall self k idx fuel l0 rest,
  Forall elem_ok elems -> attrs self !! k = Some (AttrList l0) ->
  drop idx (tokens self) = cell_tokens elems ++ rbrace :: rest ->
  length elems < fuel ->
  exists idx',
    while_ fuel cell_cond (cell_body k) idx self =
      (set_attrs (<[k := AttrList (l0 ++ cell_values elems)]> (attrs self)) self,
       OK idx') /\
    drop idx' (tokens self) = rbrace :: rest.
Proof.
  induction elems as [|e elems IH]; intros self k idx fuel l0 rest Hok Hk Hd Hfuel;
    (destruct fuel as [|fuel]; [cbn [length] in Hfuel; lia|]); rewrite while_S.
  - cbn in Hd.
    erewrite run_bind_OK by (eapply cell_cond_run; exact Hd).
    rewrite bool_decide_eq_true_2 by reflexivity. cbn [negb].
    exists idx. split; [|exact Hd].
    cbn. rewrite app_nil_r, (insert_id _ _ _ Hk), set_attrs_id. reflexivity.
  - apply Forall_cons in Hok as [He Hok].
    cbn [cell_tokens flat_map] in Hd. fold (cell_tokens elems) in Hd.
    rewrite <- app_assoc in Hd.
    destruct (elem_tokens_head e (cell_tokens elems ++ rbrace :: rest) He)
      as (t0 & r0 & Hhd & Hne).
    pose proof Hd as Hd0. rewrite Hhd in Hd0.
    erewrite run_bind_OK by (eapply cell_cond_run; exact Hd0).
    rewrite bool_decide_eq_false_2 by exact Hne. cbn [negb].
    destruct (cell_body_elem self k idx e l0 _ He Hk Hd) as (idx1 & Hbody & Hd1).
    erewrite run_bind_OK by exact Hbody.
    match type of Hbody with
    | _ = (?self1, _) =>
        destruct (IH self1 k idx1 fuel (l0 ++ elem_values e) rest Hok
                    ltac:(cbn; apply lookup_insert_eq) Hd1
                    ltac:(cbn [length] in Hfuel; lia))
          as (idx' & Hloop & Hd2)
    end.
    exists idx'. split; [|exact Hd2].
    rewrite Hloop. cbn [cell_values flat_map]. fold (cell_values elems).
    unfold set_attrs; cbn [name path tokens attrs bases docstring properties methods].
    rewrite insert_insert_eq, <- app_assoc. reflexivity.
Qed.

(** The value of an attribute that is a cell array. *)
Lemma attr_value_cell self k idx elems l0 rest :
  Forall elem_ok elems -> attrs self !! k = Some (AttrList l0) ->
  drop idx (tokens self) = lbrace :: cell_tokens elems ++ rbrace :: rest ->
  exists idx',
    attr_value k idx self =
      (set_attrs (<[k := AttrList (l0 ++ cell_values elems)]> (attrs self)) self,
       OK idx') /\
    drop idx' (tokens self) = rest.
Proof.
  intros Hok Hk Hd. unfold attr_value, lbrace in *. run_read. cbn [fst snd].
  rewrite (bool_decide_eq_false_2 (Token.Punctuation = Token.Name))
    by discriminate.
  cbn [andb]. run_read. rewrite bool_decide_eq_true_2 by reflexivity.
  pose proof (drop_next _ _ _ _ Hd) as Hd1.
  assert (Hfuel : length elems < loop_fuel self).
  { apply drop_length in Hd. cbn [length] in Hd. rewrite length_app in Hd.
    pose proof (length_cell_tokens elems). unfold loop_fuel. lia. }
  destruct (cell_loop_elems elems self k (idx + 1) (loop_fuel self) l0 rest
              Hok Hk Hd1 Hfuel) as (idx' & Hloop & Hd2).
  unfold while at 1. rewrite run_bind, Hloop.
  exists (idx' + 1). split; [reflexivity|].
  apply (drop_next _ _ _ _ Hd2).
Qed.

(** One round of the attribute loop on any entry that a comma or the
    closing parenthesis follows. *)
Lemma attr_body_entry self idx a t rest :
  entry_ok a -> t = comma \/ t = rparen ->
  drop idx (tokens self) = entry_tokens a ++ t :: rest ->
  exists idx',
    attr_body idx self =
      (set_attrs (<[entry_key a := entry_value a]> (attrs self)) self, OK idx') /\
    drop idx' (tokens self) = if bool_decide (t = comma) then rest else t :: rest.
Proof.
  destruct a as [a|k w0 w1 w2 elems w3];
    cbn [entry_ok entry_key entry_value entry_tokens];
    [apply attr_body_item|].
  intros [Hkey Hok] Ht Hd.
  assert (Hb : is_blank t = false) by (destruct Ht; subst t; reflexivity).
  unfold blanks in Hd. flatten_app Hd.
  pose proof (drop_blanks _ _ _ _ Hd) as Hd1.
  pose proof (drop_next _ _ _ _ Hd1) as Hd2.
  pose proof (drop_blanks _ _ _ _ Hd2) as Hd3.
  pose proof (drop_next _ _ _ _ Hd3) as Hd4.
  pose proof (drop_blanks _ _ _ _ Hd4) as Hd5.
  unfold attr_body. run_read. run_read. cbn [fst snd].
  rewrite Hkey, bool_decide_eq_true_2 by reflexivity. cbn [andb].
  unfold attrs_setitem. rewrite run_assign.
  run_read. run_read.
  rewrite bool_decide_eq_false_2 by discriminate.
  run_read.
  rewrite bool_decide_eq_true_2 by reflexivity.
  run_read.
  match goal with
  | |- context [mbind _ (attr_value k ?i) ?self1] =>
      destruct (attr_value_cell self1 k i elems [] _ Hok
                  ltac:(cbn; apply lookup_insert_eq) Hd5)
        as (idx1 & Hval & Hd6)
  end.
  erewrite run_bind_OK by exact Hval.
  cbn [tokens set_attrs] in Hd6.
  pose proof (drop_blanks _ _ _ _ Hd6) as Hd7.
  run_read. run_read.
  unfold set_attrs at 1 2;
    cbn [name path tokens attrs bases docstring properties methods app].
  rewrite insert_insert_eq.
  destruct Ht; subst t.
  - rewrite !bool_decide_eq_true_2 by reflexivity.
    eexists. split; [reflexivity|].
    apply (drop_next _ _ _ _ Hd7).
  - rewrite !bool_decide_eq_false_2 by discriminate.
    eexists. split; [reflexivity|exact Hd7].
Qed.

Lemma entry_tokens_head a r :
  exists t r', entry_tokens a ++ r = t :: r' /\ t <> rparen.
Proof.
  destruct a as [a|k [|w0] w1 w2 elems w3]; cbn [entry_tokens];
    [apply item_tokens_head| |]; cbn; eexists _, _;
    (split; [reflexivity|discriminate]).
Qed.

Lemma length_entries_tokens l : length l <= length (entries_tokens l).
Proof.
  induction l as [|a l IH]; cbn [entries_tokens length]; [lia|].
  rewrite length_app.
  assert (1 <= length (entry_tokens a)).
  { destruct a as [a|k w0 w1 w2 elems w3]; cbn [entry_tokens];
      [apply length_item_tokens|].
    rewrite length_app. cbn. lia. }
  destruct l; cbn [length] in *; lia.
Qed.

(** The attribute loop over the entries of a list, up to the closing
    parenthesis. *)
Lemma attr_loop_entries l : forall self idx fuel rest,
  Forall entry_ok l ->
  drop idx (tokens self) = entries_tokens l ++ rparen :: rest ->
  length l < fuel ->
  exists idx',
    while_ fuel attr_cond attr_body idx self =
      (set_attrs (entries_attrs l (attrs self)) self, OK idx') /\
    drop idx' (tokens self) = rparen :: rest.
Proof.
  induction l as [|a l IH]; intros self idx fuel rest Hok Hd Hfuel;
    (destruct fuel as [|fuel]; [simpl in Hfuel; lia|]); rewrite while_S.
  - simpl in Hd.
    erewrite run_bind_OK by (eapply attr_cond_run; eassumption).
    rewrite bool_decide_eq_true_2 by reflexivity. cbn [negb].
    exists idx. split; [|assumption].
    unfold entries_attrs; simpl. rewrite set_attrs_id. reflexivity.
  - apply Forall_cons in Hok as [Ha Hok].
    assert (exists t rest', (t = comma \/ t = rparen) /\
              drop idx (tokens self) = entry_tokens a ++ t :: rest' /\
              (if bool_decide (t = comma) then rest' else t :: rest') =
                entries_tokens l ++ rparen :: rest) as (t & rest' & Ht & Hd' & Hnext).
    { cbn [entries_tokens] in Hd. rewrite <- app_assoc in Hd. destruct l as [|b l].
      - exists rparen, rest. auto.
      - exists comma, (entries_tokens (b :: l) ++ rparen :: rest). auto. }
    destruct (entry_tokens_head a (t :: rest')) as (t0 & r0 & Hhd & Hne).
    rewrite Hhd in Hd'.
    erewrite run_bind_OK by (eapply attr_cond_run; eassumption).
    rewrite bool_decide_eq_false_2 by assumption. cbn [negb].
    rewrite <- Hhd in Hd'.
    destruct (attr_body_entry self idx a t rest' Ha Ht Hd') as (idx1 & Hbody & Hd1).
    erewrite run_bind_OK by exact Hbody.
    rewrite Hnext in Hd1.
    destruct (IH (set_attrs (<[entry_key a := entry_value a]> (attrs self)) self)
                idx1 fuel rest Hok Hd1 ltac:(simpl in Hfuel; lia))
      as (idx' & Hloop & Hd2).
    exists idx'. split; [|exact Hd2].
    rewrite Hloop. reflexivity.
Qed.

Lemma parse_attrs_entries self idx l rest :
  Forall entry_ok l ->
  drop idx (tokens self) = lparen :: entries_tokens l ++ rparen :: rest ->
  exists idx',
    parse_attrs idx self =
      (set_attrs (entries_attrs l (attrs self)) self, OK idx') /\
    drop idx' (tokens self) = rest.
Proof.
  intros Hok Hd. unfold parse_attrs. run_read.
  rewrite bool_decide_eq_true_2 by reflexivity.
  pose proof (drop_next _ _ _ _ Hd) as Hd1.
  assert (Hfuel : length l < loop_fuel self).
  { apply drop_length in Hd. simpl in Hd. rewrite length_app in Hd.
    pose proof (length_entries_tokens l). unfold loop_fuel. lia. }
  destruct (attr_loop_entries l self (idx + 1) (loop_fuel self) rest Hok Hd1 Hfuel)
    as (idx' & Hloop & Hd2).
  unfold while at 1. rewrite run_bind, Hloop.
  exists (idx' + 1). split; [reflexivity|].
  apply (drop_next _ _ _ _ Hd2).
Qed.

(** ** Whole headers, and headers cut short *)

(** The parse of a whole header up to the token after the name. *)
Lemma parse_tokens_whole_header self w0 al w1 w2 t rest :
  entry_list_ok al -> is_blank t = false ->
  tokens self = whole_header_tokens (name self) w0 al w1 w2 ++ t :: rest ->
  exists idx,
    parse_tokens self =
      (parse_bases idx ≫= parse_docstring)
        (set_attrs (entry_list_attrs al (attrs self)) self) /\
    drop idx (tokens self) = t :: rest.
Proof.
  intros Hok Ht Htk. unfold parse_tokens. cbn [Nat.add].
  assert (Hd : drop 0 (tokens self) =
               whole_header_tokens (name self) w0 al w1 w2 ++ t :: rest)
    by (rewrite <- Htk; reflexivity).
  unfold whole_header_tokens, blanks in Hd. flatten_app Hd.
  unfold classdef in Hd. run_read.
  rewrite bool_decide_eq_true_2 by reflexivity. cbn [negb].
  pose proof (drop_next _ _ _ _ Hd) as Hd1. cbn [Nat.add] in Hd1.
  destruct al as [l|]; cbn [entry_list_tokens entry_list_ok entry_list_attrs] in *.
  - flatten_app Hd1.
    pose proof (drop_blanks _ _ _ _ Hd1) as Hd2.
    run_read.
    destruct (parse_attrs_entries self (1 + w0) l _ Hok Hd2) as (idx1 & Hattrs & Hd3).
    erewrite run_bind_OK by exact Hattrs.
    erewrite run_bind_OK
      by (eapply (parse_classname_run _ _ w1 w2); [exact Hd3|exact Ht]).
    eexists. split; [reflexivity|].
    apply drop_blanks in Hd3. apply drop_next in Hd3. apply drop_blanks in Hd3.
    exact Hd3.
  - cbn [app] in Hd1. rewrite app_assoc, <- replicate_add in Hd1.
    pose proof (drop_blanks _ _ _ _ Hd1) as Hd2.
    run_read.
    erewrite run_bind_OK
      by (eapply parse_attrs_none; [exact Hd2|discriminate]).
    erewrite run_bind_OK
      by (eapply (parse_classname_run _ _ 0 w2); [exact Hd2|exact Ht]).
    eexists. split; [rewrite set_attrs_id; reflexivity|].
    apply drop_next in Hd2. apply drop_blanks in Hd2.
    rewrite Nat.add_0_r. exact Hd2.
Qed.



(** The parse up to the class name, whatever the token there is. *)
Lemma parse_tokens_before_name self w0 al w1 t rest :
  entry_list_ok al -> is_blank t = false -> (al = None -> t <> lparen) ->
  tokens self =
    classdef :: blanks w0 ++ entry_list_tokens al ++ blanks w1 ++ t :: rest ->
  exists idx w,
    parse_tokens self =
      (parse_classname idx ≫= fun i => parse_bases i ≫= parse_docstring)
        (set_attrs (entry_list_attrs al (attrs self)) self) /\
    drop idx (tokens self) = blanks w ++ t :: rest.
Proof.
  intros Hok Ht Hlp Htk. unfold parse_tokens. cbn [Nat.add].
  assert (Hd : drop 0 (tokens self) =
               classdef :: blanks w0 ++ entry_list_tokens al ++
               blanks w1 ++ t :: rest)
    by (rewrite <- Htk; reflexivity).
  unfold blanks in Hd. unfold classdef in Hd. run_read.
  rewrite bool_decide_eq_true_2 by reflexivity. cbn [negb].
  pose proof (drop_next _ _ _ _ Hd) as Hd1. cbn [Nat.add] in Hd1.
  destruct al as [l|]; cbn [entry_list_tokens entry_list_ok entry_list_attrs] in *.
  - flatten_app Hd1.
    pose proof (drop_blanks _ _ _ _ Hd1) as Hd2.
    run_read.
    destruct (parse_attrs_entries self (1 + w0) l _ Hok Hd2) as (idx1 & Hattrs & Hd3).
    erewrite run_bind_OK by exact Hattrs.
    exists idx1, w1. split; [reflexivity|exact Hd3].
  - cbn [app] in Hd1. rewrite app_assoc, <- replicate_add in Hd1.
    pose proof (drop_blanks _ _ _ _ Hd1) as Hd2.
    run_read.
    erewrite run_bind_OK
      by (eapply parse_attrs_none; [exact Hd2|apply Hlp; reflexivity]).
    exists (1 + (w0 + w1)), 0. split; [rewrite set_attrs_id; reflexivity|exact Hd2].
Qed.



(** X10. A header whose tokens end with the name of the class or in the
    blanks after it, or with the newline after the name or in the
    indentation after that newline, makes the constructor raise
    [IndexError]: it reads on for a token that ends the blanks, and for one
    that ends the indentation. *)
Theorem header_cut_short_raises nm pth w0 al w1 w2 ind :
  entry_list_ok al ->
  Forall (fun x => is_indent x = true) ind ->
  new_MatClass nm pth (whole_header_tokens nm w0 al w1 w2) = Raise IndexError /\
  new_MatClass nm pth (whole_header_tokens nm w0 al w1 w2 ++ newline :: ind) =
    Raise IndexError.
Proof.
  intros Hok Hind. split.
  - unfold new_MatClass. rewrite init_start.
    destruct (parse_tokens_before_name
                (start nm pth (whole_header_tokens nm w0 al w1 w2))
                w0 al w1 (Token.Name, nm) (blanks w2) Hok eq_refl)
      as (idx & w & -> & Hd); [discriminate|reflexivity|].
    unfold blanks in Hd. pose proof (drop_blanks _ _ _ _ Hd) as Hd1.
    pose proof (drop_next _ _ _ _ Hd1) as Hd2.
    match goal with
    | |- context [mbind _ (parse_classname idx) ?s] => set (self := s) in *
    end.
    assert (Hc : parse_classname idx self = (self, Raise IndexError)).
    { unfold parse_classname. run_read. run_read.
      rewrite bool_decide_eq_true_2 by reflexivity. cbn [negb]. cbn zeta.
      erewrite run_reads_Raise; [reflexivity|].
      unfold _blanks. subst self. cbn [tokens set_attrs]. rewrite Hd2.
      apply scan_end, Forall_blanks. }
    rewrite (run_bind_Raise _ _ _ _ _ Hc). reflexivity.
  - unfold new_MatClass. rewrite init_start.
    destruct (parse_tokens_whole_header
                (start nm pth (whole_header_tokens nm w0 al w1 w2 ++ newline :: ind))
                w0 al w1 w2 newline ind Hok eq_refl eq_refl) as (idx & -> & Hd).
    erewrite run_bind_OK by (eapply parse_bases_newline; exact Hd).
    apply drop_next in Hd.
    unfold parse_docstring.
    erewrite run_reads_Raise; [reflexivity|].
    unfold _indent. cbn [tokens set_attrs] in *. rewrite Hd.
    apply scan_end, Hind.
Qed.

(** [classdef Foo], and [classdef Foo] with a newline and two blanks. *)
Lemma header_cut_short_raises_witness :
  new_MatClass "Foo" "mfiles" (whole_header_tokens "Foo" 1 None 0 0) =
    Raise IndexError /\
  new_MatClass "Foo" "mfiles"
    (whole_header_tokens "Foo" 1 None 0 0 ++ newline :: [blank; blank]) =
    Raise IndexError.
Proof.
  apply (header_cut_short_raises "Foo" "mfiles" 1 None 0 0 [blank; blank]);
    [exact I|].
  repeat first [apply List.Forall_nil | apply List.Forall_cons]; reflexivity.
Defined.



(** ** Tokens that the attribute list does not expect *)

(** The attribute loop over entries with a comma after each: it goes on
    from the token after the last comma. *)
Lemma attr_loop_entries_commas l : forall self idx fuel rest,
  Forall entry_ok l ->
  drop idx (tokens self) = entries_commas l ++ rest ->
  length l <= fuel ->
  exists idx',
    while_ fuel attr_cond attr_body idx self =
      while_ (fuel - length l) attr_cond attr_body idx'
        (set_attrs (entries_attrs l (attrs self)) self) /\
    drop idx' (tokens self) = rest.
Proof.
  induction l as [|a l IH]; intros self idx fuel rest Hok Hd Hfuel.
  - exists idx. cbn [length entries_attrs foldl]. rewrite Nat.sub_0_r, set_attrs_id.
    split; [reflexivity|exact Hd].
  - destruct fuel as [|fuel]; [cbn [length] in Hfuel; lia|]. rewrite while_S.
    apply Forall_cons in Hok as [Ha Hok].
    cbn [entries_commas flat_map] in Hd. fold (entries_commas l) in Hd.
    rewrite <- !app_assoc in Hd. cbn [app] in Hd.
    destruct (entry_tokens_head a (comma :: entries_commas l ++ rest))
      as (t0 & r0 & Hhd & Hne).
    pose proof Hd as Hd0. rewrite Hhd in Hd0.
    erewrite run_bind_OK by (eapply attr_cond_run; eassumption).
    rewrite bool_decide_eq_false_2 by assumption. cbn [negb].
    destruct (attr_body_entry self idx a comma _ Ha (or_introl eq_refl) Hd)
      as (idx1 & Hbody & Hd1).
    erewrite run_bind_OK by exact Hbody.
    rewrite bool_decide_eq_true_2 in Hd1 by reflexivity.
    destruct (IH (set_attrs (<[entry_key a := entry_value a]> (attrs self)) self)
                idx1 fuel rest Hok Hd1 ltac:(cbn [length] in Hfuel; lia))
      as (idx' & Hloop & Hd2).
    exists idx'. split; [|exact Hd2].
    rewrite Hloop. reflexivity.
Qed.

Lemma length_entries_commas l : length l <= length (entries_commas l).
Proof.
  induction l as [|a l IH]; [reflexivity|].
  cbn [entries_commas flat_map length]. fold (entries_commas l).
  rewrite !length_app. cbn [length]. lia.
Qed.

(** A round of the attribute loop on a token that is not the name of a
    class attribute. *)
Lemma attr_body_unexpected self idx w bad rest :
  bad <> blank -> (bad.1 = Token.Name -> dict_in bad.2 cls_attr_types = false) ->
  drop idx (tokens self) = blanks w ++ bad :: rest ->
  attr_body idx self = (self, Raise (unexpected_class_attribute bad.2)).
Proof.
  intros Hb Hbad Hd. apply is_blank_false_iff in Hb. unfold blanks in Hd.
  pose proof (drop_blanks _ _ _ _ Hd) as Hd1.
  unfold attr_body. run_read. run_read. cbn zeta.
  destruct (decide (bad.1 = Token.Name)) as [Hn|Hn].
  - rewrite (Hbad Hn), andb_false_r. reflexivity.
  - rewrite bool_decide_eq_false_2 by exact Hn. reflexivity.
Qed.

(** A round on a name with [=] and a value that is neither a logical
    value nor a cell array: the round stops at the value. *)
Lemma attr_body_odd_value self idx w0 key w1 w2 v rest :
  dict_in key cls_attr_types = true ->
  v <> blank -> v <> comma -> v <> lbrace ->
  (v.1 = Token.Name -> v.2 <> "true" /\ v.2 <> "false") ->
  drop idx (tokens self) =
    blanks w0 ++ (Token.Name, key) :: blanks w1 ++ equals :: blanks w2 ++ v :: rest ->
  exists idx',
    attr_body idx self =
      (set_attrs (<[key := AttrList []]> (attrs self)) self, OK idx') /\
    drop idx' (tokens self) = v :: rest.
Proof.
  intros Hkey Hb Hc Hl Hv Hd. apply is_blank_false_iff in Hb.
  unfold blanks in Hd. flatten_app Hd.
  pose proof (drop_blanks _ _ _ _ Hd) as Hd1.
  pose proof (drop_next _ _ _ _ Hd1) as Hd2.
  pose proof (drop_blanks _ _ _ _ Hd2) as Hd3.
  pose proof (drop_next _ _ _ _ Hd3) as Hd4.
  pose proof (drop_blanks _ _ _ _ Hd4) as Hd5.
  assert (Hd6 : drop (idx + w0 + 1 + w1 + 1 + w2 + 0) (tokens self) = v :: rest)
    by (rewrite Nat.add_0_r; exact Hd5).
  assert (Hd5' : drop (idx + w0 + 1 + w1 + 1 + w2) (tokens self) =
                 replicate 0 blank ++ v :: rest) by exact Hd5.
  unfold attr_body. run_read. run_read. cbn [fst snd].
  rewrite Hkey, bool_decide_eq_true_2 by reflexivity. cbn [andb].
  unfold attrs_setitem. rewrite run_assign.
  run_read. run_read.
  rewrite bool_decide_eq_false_2 by discriminate.
  run_read.
  rewrite bool_decide_eq_true_2 by reflexivity.
  run_read.
  erewrite run_bind_OK.
  2:{ unfold attr_value. run_read. cbn zeta.
      assert (Hno : bool_decide (v.1 = Token.Name) &&
                    bool_decide (v.2 ∈ ["true"; "false"]) = false).
      { destruct (decide (v.1 = Token.Name)) as [Hn|Hn].
        - destruct (Hv Hn) as [Ht Hf].
          rewrite (bool_decide_eq_false_2 (v.2 ∈ ["true"; "false"])).
          + apply andb_false_r.
          + rewrite !elem_of_cons, elem_of_nil. tauto.
        - rewrite bool_decide_eq_false_2 by exact Hn. reflexivity. }
      rewrite Hno. run_read.
      rewrite bool_decide_eq_false_2 by exact Hl. reflexivity. }
  erewrite run_reads_OK
    by (simpl tokens; eapply (blanks_drop _ _ 0); [exact Hd5'|exact Hb]).
  erewrite run_reads_OK by (simpl tokens; eapply tk_eq_drop; exact Hd6).
  rewrite bool_decide_eq_false_2 by exact Hc.
  eexists. split; [reflexivity|exact Hd6].
Qed.

(** X12. In an attribute list, after entries that are each followed by a
    comma: a token that is not a blank, not the closing parenthesis and not
    the name of a class attribute makes the constructor raise the exception
    for an unexpected class attribute with the text of that token; and so
    does the value of an attribute that is neither [true] nor [false] nor
    a cell array, nor a comma, the closing parenthesis or the name of a
    class attribute: the exception names the value, not the attribute. *)
Theorem unexpected_attribute_tokens nm pth w0 l rest :
  Forall entry_ok l ->
  (forall w bad,
     bad <> blank -> bad <> rparen ->
     (bad.1 = Token.Name -> dict_in bad.2 cls_attr_types = false) ->
     new_MatClass nm pth
       (classdef :: blanks w0 ++ lparen :: entries_commas l ++
        blanks w ++ bad :: rest) =
       Raise (unexpected_class_attribute bad.2)) /\
  (forall wk key we wv v,
     dict_in key cls_attr_types = true ->
     v <> blank -> v <> comma -> v <> rparen -> v <> lbrace ->
     (v.1 = Token.Name ->
      v.2 <> "true" /\ v.2 <> "false" /\ dict_in v.2 cls_attr_types = false) ->
     new_MatClass nm pth
       (classdef :: blanks w0 ++ lparen :: entries_commas l ++
        blanks wk ++ (Token.Name, key) :: blanks we ++ equals ::
        blanks wv ++ v :: rest) =
       Raise (unexpected_class_attribute v.2)).
Proof.
  intros Hok.
  assert (Hrun : forall tail e,
            1 <= length tail ->
            (forall self idx fuel,
               drop idx (tokens self) = tail -> length tail <= fuel ->
               exists self',
                 while_ fuel attr_cond attr_body idx self = (self', Raise e)) ->
            new_MatClass nm pth
              (classdef :: blanks w0 ++ lparen :: entries_commas l ++ tail) =
              Raise e).
  { intros tail e Hlen Htail. unfold new_MatClass. rewrite init_start.
    set (self := start nm pth _).
    assert (Hd : drop 0 (tokens self) =
                 classdef :: replicate w0 blank ++ lparen ::
                 entries_commas l ++ tail) by reflexivity.
    pose proof (drop_next _ _ _ _ Hd) as Hd1. cbn [Nat.add] in Hd1.
    pose proof (drop_blanks _ _ _ _ Hd1) as Hd2.
    pose proof (drop_next _ _ _ _ Hd2) as Hd3.
    assert (Hfuel : length l + length tail <= loop_fuel self).
    { apply drop_length in Hd2. cbn [length] in Hd2. rewrite length_app in Hd2.
      pose proof (length_entries_commas l). unfold loop_fuel. lia. }
    destruct (attr_loop_entries_commas l self (S w0 + 1) (loop_fuel self) tail
                Hok Hd3 ltac:(lia)) as (idx' & Hloop & Hd4).
    destruct (Htail (set_attrs (entries_attrs l (attrs self)) self) idx'
                (loop_fuel self - length l) Hd4 ltac:(lia)) as (self' & Hraise).
    unfold parse_tokens. cbn [Nat.add].
    unfold classdef in Hd. run_read.
    rewrite bool_decide_eq_true_2 by reflexivity. cbn [negb].
    run_read.
    erewrite run_bind_Raise; [reflexivity|].
    unfold parse_attrs. run_read.
    rewrite bool_decide_eq_true_2 by reflexivity.
    unfold while at 1. rewrite run_bind, Hloop, Hraise. reflexivity. }
  split.
  - intros w bad Hb Hr Hbad. apply Hrun.
    { rewrite length_app. cbn [length]. lia. }
    intros self idx fuel Hd Hfuel.
    destruct fuel as [|fuel];
      [rewrite length_app in Hfuel; cbn [length] in Hfuel; lia|].
    rewrite while_S.
    assert (exists t r, drop idx (tokens self) = t :: r /\ t <> rparen)
      as (t & r & Hhd & Hne).
    { rewrite Hd. destruct w; cbn; eexists _, _;
        (split; [reflexivity|first [exact Hr|discriminate]]). }
    erewrite run_bind_OK by (eapply attr_cond_run; eassumption).
    rewrite bool_decide_eq_false_2 by assumption. cbn [negb].
    erewrite run_bind_Raise by (eapply attr_body_unexpected; eassumption).
    eauto.
  - intros wk key we wv v Hkey Hb Hc Hr Hl Hv. apply Hrun.
    { rewrite length_app. cbn [length]. lia. }
    intros self idx fuel Hd Hfuel.
    assert (2 <= fuel) as Hf2.
    { rewrite !length_app in Hfuel. cbn [length] in Hfuel.
      rewrite !length_app in Hfuel. cbn [length] in Hfuel. lia. }
    destruct fuel as [|[|fuel]]; [lia|lia|].
    rewrite while_S.
    assert (exists t r, drop idx (tokens self) = t :: r /\ t <> rparen)
      as (t & r & Hhd & Hne).
    { rewrite Hd. destruct wk; cbn; eexists _, _;
        (split; [reflexivity|discriminate]). }
    erewrite run_bind_OK by (eapply attr_cond_run; eassumption).
    rewrite bool_decide_eq_false_2 by assumption. cbn [negb].
    destruct (attr_body_odd_value self idx wk key we wv v rest Hkey Hb Hc Hl
                ltac:(intros Hn; destruct (Hv Hn) as (? & ? & _); auto) Hd)
      as (idx1 & Hbody & Hd1).
    erewrite run_bind_OK by exact Hbody.
    rewrite while_S.
    erewrite run_bind_OK by (eapply attr_cond_run; simpl tokens; exact Hd1).
    rewrite bool_decide_eq_false_2 by exact Hr. cbn [negb].
    erewrite run_bind_Raise.
    2:{ eapply (attr_body_unexpected _ _ 0 v rest Hb);
          [intros Hn; apply (Hv Hn)|simpl tokens; exact Hd1]. }
    eauto.
Qed.

Lemma unexpected_attribute_tokens_witness :
  let l := [Plain (Flag "Hidden" 0 0)] in
  new_MatClass "Foo" "mfiles"
    (classdef :: blanks 1 ++ lparen :: entries_commas l ++
     blanks 1 ++ (Token.Name, "Bogus") :: [rparen]) =
    Raise (unexpected_class_attribute "Bogus") /\
  new_MatClass "Foo" "mfiles"
    (classdef :: blanks 1 ++ lparen :: entries_commas l ++
     blanks 1 ++ (Token.Name, "Sealed") :: blanks 1 ++ equals ::
     blanks 1 ++ (Token.Name, "yes") :: [rparen]) =
    Raise (unexpected_class_attribute "yes").
Proof.
  intros l.
  assert (Hok : Forall entry_ok l).
  { apply List.Forall_cons; [|apply List.Forall_nil].
    split; [vm_compute; reflexivity|exact I]. }
  destruct (unexpected_attribute_tokens "Foo" "mfiles" 1 l [rparen] Hok)
    as [H1 H2].
  split.
  - apply (H1 1 (Token.Name, "Bogus")); [discriminate|discriminate|].
    intros _. vm_compute. reflexivity.
  - apply (H2 1 "Sealed" 1 1 (Token.Name, "yes"));
      [vm_compute; reflexivity|discriminate|discriminate|discriminate
      |discriminate|].
    intros _. split; [discriminate|]. split; [discriminate|vm_compute; reflexivity].
Defined.

(** ** The dispatch of parse_mfile *)

Lemma new_MatFunction_raises nm pth tks :
  exists e, new_MatFunction nm pth tks = Raise e.
Proof. eexists. reflexivity. Qed.

(** X13. What [parse_mfile] does with the tokens of a file: with no token
    at all it raises [IndexError]; when the first token is neither the
    keyword [function] nor the keyword [classdef] it returns [None]; and an
    object that it returns is a class, the one that [MatClass] builds from
    tokens that start with [classdef]. It never returns a function. *)
Theorem parse_mfile_outcomes tks nm pth :
  (tks = [] -> parse_mfile tks nm pth = Raise IndexError) /\
  (forall t, tks !! 0 = Some t ->
     t <> (Token.Keyword, "function") -> t <> classdef ->
     parse_mfile tks nm pth = OK None) /\
  (forall o, parse_mfile tks nm pth = OK (Some o) ->
     exists c, o = AClass c /\ new_MatClass nm pth tks = OK c /\
               tks !! 0 = Some classdef).
Proof.
  unfold parse_mfile. split; [intros ->; reflexivity|]. split.
  - intros t -> Hf Hc.
    rewrite bool_decide_eq_false_2 by exact Hf.
    rewrite bool_decide_eq_false_2 by exact Hc. reflexivity.
  - intros o. destruct (tks !! 0) as [t0|]; [|discriminate].
    destruct (bool_decide (t0 = (Token.Keyword, "function"))).
    + destruct (new_MatFunction_raises nm pth tks) as [e ->]. discriminate.
    + destruct (bool_decide (t0 = (Token.Keyword, "classdef"))) eqn:Hc;
        [|discriminate].
      apply bool_decide_eq_true in Hc. subst t0.
      destruct (new_MatClass nm pth tks) as [c|e|]; try discriminate.
      intros [= <-]. exists c. auto.
Qed.

Lemma parse_mfile_outcomes_witness :
  parse_mfile [] "Foo" "mfiles" = Raise IndexError /\
  parse_mfile [(Token.Name, "x"); newline] "Foo" "mfiles" = OK None /\
  exists c, new_MatClass "Foo" "mfiles" sample_tokens = OK c /\
            sample_tokens !! 0 = Some classdef.
Proof.
  split; [exact (proj1 (parse_mfile_outcomes [] "Foo" "mfiles") eq_refl)|].
  split.
  - apply (proj1 (proj2 (parse_mfile_outcomes [(Token.Name, "x"); newline]
                           "Foo" "mfiles")) (Token.Name, "x"));
      [reflexivity|discriminate|discriminate].
  - destruct sample_parses as [c Hc].
    assert (Hp : parse_mfile sample_tokens "Foo" "mfiles" = OK (Some (AClass c))).
    { unfold parse_mfile. cbn [sample_tokens lookup list_lookup].
      rewrite bool_decide_eq_false_2 by discriminate.
      rewrite bool_decide_eq_true_2 by reflexivity. rewrite Hc. reflexivity. }
    destruct (proj2 (proj2 (parse_mfile_outcomes sample_tokens "Foo" "mfiles"))
                _ Hp) as (c' & _ & Hc' & H0).
    exists c'. split; assumption.
Defined.
